(** * blackarm_server: frame codec, command dispatcher, feedback
      acquisition and sequence transforms

    A shallow embedding of the Go sources [main.go] (the
    [BlackArmController] and the read-back path) and of the merge handler of
    the web server, followed by the properties proved about them.

    Conventions.
    - Go's [uint8], [uint16], [uint32] and [int] values are integers of [Z];
      conversions and wrap-around are written out ([u8], [u16], [u32]).
    - A [float32] is represented by its IEEE-754 bit pattern, which is what
      [math.Float32bits] and [math.Float32frombits] expose; a [float64] that
      was obtained by widening a [float32] is represented by that [float32].
    - Go strings are byte sequences, as Rocq's [string] is.
    - The HTTP bridge is an oracle: posting a frame appends it to a log of
      frames handed to the transport and yields the oracle's answer; a
      listening round is given the finite list of poll answers that arrive
      before its deadline. *)

From Stdlib Require Import Ascii String ZArith Lia.
From stdpp Require Import gmap strings list.

Local Open Scope Z_scope.

(** ** Machine integers *)

Definition u8 (x : Z) : Z := x mod 2 ^ 8.
Definition u16 (x : Z) : Z := x mod 2 ^ 16.
Definition u32 (x : Z) : Z := x mod 2 ^ 32.

Definition is_u8 (x : Z) : Prop := 0 <= x < 2 ^ 8.
Definition is_u16 (x : Z) : Prop := 0 <= x < 2 ^ 16.
Definition is_u32 (x : Z) : Prop := 0 <= x < 2 ^ 32.

(** ** Floating point values, by bit pattern *)

(** [math.Float32frombits] and [math.Float32bits] reinterpret the 32 bits:
    the constructor and the projection of this record. *)
Record float32 : Type := Float32frombits { Float32bits : Z }.

(** The conversion [float64(x)] of a [float32] is exact on every number and
    infinity, and takes a NaN to a NaN (the hardware may quiet a signalling
    one on the way). The result is kept as the [float32] it widens: equal
    representations stand for equal [float64] values, and nothing below is
    drawn from two representations being different. *)
Record float64 : Type := float64_of_float32 { float32_of_float64 : float32 }.

Global Instance float32_eq_dec : EqDecision float32.
Proof. solve_decision. Defined.

Global Instance float64_eq_dec : EqDecision float64.
Proof. solve_decision. Defined.

(** Unary minus on a [float32] flips the sign bit. *)
Definition fneg32 (x : float32) : float32 :=
  Float32frombits (Z.lxor (Float32bits x) 0x80000000).

(** The constants [float32(0)], [float32(0.1)] and [float32(-0.1)]:
    0.1 rounds to nearest as 0x3DCCCCCD. *)
Definition f32_zero : float32 := Float32frombits 0.
Definition f32_0_1 : float32 := Float32frombits 0x3DCCCCCD.
Definition f32_neg_0_1 : float32 := Float32frombits 0xBDCCCCCD.

(** Exponent field all ones: NaN or an infinity. *)
Definition f32_is_nan_or_inf (x : float32) : bool :=
  Z.land (Z.shiftr (Float32bits x) 23) 0xFF =? 0xFF.

(** ** CAN frames *)

(** [CANMessage] of main.go. *)
Record CANMessage : Type := mkCANMessage {
  Interface : string;
  ID : Z;
  Data : list Z;
  Extended : bool
}.

(** [binary.LittleEndian.PutUint32] into a fresh 4-byte slice. *)
Definition PutUint32 (v : Z) : list Z :=
  [u8 v; u8 (Z.shiftr v 8); u8 (Z.shiftr v 16); u8 (Z.shiftr v 24)].

(** *** Constants of the read path *)

Definition typeReadSingle : Z := 0x11.
Definition defaultHostID : Z := 0xFD.
Definition idxLocRef : Z := 0x7016.
Definition idxLocKp : Z := 0x701E.
Definition idxSpdKp : Z := 0x701F.
Definition idxSpdKi : Z := 0x7020.

(** [buildReadReqID]: the arguments are [uint8]. *)
Definition buildReadReqID (hostID motorID : Z) : Z :=
  Z.lor (Z.lor (u32 (Z.shiftl typeReadSingle 24)) (u32 (Z.shiftl hostID 8)))
        motorID.

(** [buildReadRespID]. *)
Definition buildReadRespID (hostID motorID : Z) : Z :=
  Z.lor (Z.lor (u32 (Z.shiftl typeReadSingle 24)) (u32 (Z.shiftl motorID 8)))
        hostID.

(** [buildReadReqData]: [d := make([]byte, 8)], then bytes 0 and 1. *)
Definition buildReadReqData (index : Z) : list Z :=
  [u8 (Z.land index 0xFF); u8 (Z.land (Z.shiftr index 8) 0xFF);
   0; 0; 0; 0; 0; 0].

(** *** Hex tokens of a polled frame *)

Definition byte_of_ascii (c : ascii) : Z := Z.of_N (N_of_ascii c).

Fixpoint bytes_of_string (s : string) : list Z :=
  match s with
  | EmptyString => []
  | String c rest => byte_of_ascii c :: bytes_of_string rest
  end.

(** The value of one digit in [strconv.ParseUint], before the base check:
    [lower(c)] is [c | ('x' - 'X')]. *)
Definition digitVal (c : Z) : option Z :=
  if (48 <=? c) && (c <=? 57) then Some (c - 48)
  else
    let l := Z.lor c 32 in
    if (97 <=? l) && (l <=? 122) then Some (l - 97 + 10) else None.

(** The digit loop of [strconv.ParseUint(s, base, bitSize)] for a base
    between 2 and 36: the value, and whether an error was reported. A bad
    digit yields 0, an overflow yields [maxVal], both at once. *)
Fixpoint parseUintLoop (base cutoff maxVal : Z) (s : list Z) (n : Z)
  : Z * bool :=
  match s with
  | [] => (n, true)
  | c :: rest =>
      match digitVal c with
      | None => (0, false)
      | Some d =>
          if base <=? d then (0, false)
          else if cutoff <=? n then (maxVal, false)
          else
            let n' := (n * base) mod 2 ^ 64 in
            let n1 := (n' + d) mod 2 ^ 64 in
            if (n1 <? n') || (maxVal <? n1) then (maxVal, false)
            else parseUintLoop base cutoff maxVal rest n1
      end
  end.

(** [strconv.ParseUint(s, 16, 8)]: the empty string is a syntax error. *)
Definition ParseUint_16_8 (s : string) : Z * bool :=
  match bytes_of_string s with
  | [] => (0, false)
  | bs => parseUintLoop 16 ((2 ^ 64 - 1) / 16 + 1) (2 ^ 8 - 1) bs 0
  end.

(** [parseHexByte]: the error is dropped, the value truncated to a byte. *)
Definition parseHexByte (s : string) : Z := u8 (fst (ParseUint_16_8 s)).

(** The [i]-th token of [m.HexData]; the length was checked by the caller. *)
Definition hexAt (hex : list string) (i : nat) : Z :=
  parseHexByte (default EmptyString (hex !! i)).

(** The decoding step at the head of the message loop of
    [listenOneMotorRound] and [listenMotorParams]: [None] when the message
    is skipped ([len(m.HexData) < 8]), else the register index of bytes 0-1
    and the value whose bits are bytes 4-7. *)
Definition decode (hex : list string) : option (Z * float32) :=
  if (length hex <? 8)%nat then None
  else
    let idx := Z.lor (hexAt hex 0) (u16 (Z.shiftl (hexAt hex 1) 8)) in
    let b4 := hexAt hex 4 in
    let b5 := hexAt hex 5 in
    let b6 := hexAt hex 6 in
    let b7 := hexAt hex 7 in
    let u := Z.lor (Z.lor (Z.lor b4 (u32 (Z.shiftl b5 8)))
                          (u32 (Z.shiftl b6 16)))
                   (u32 (Z.shiftl b7 24)) in
    Some (idx, Float32frombits u).

(** Modelled from the spec: the bridge's rendering of a polled payload,
    which is not part of this repository: "payload bytes arrive as two-digit
    hex tokens, index 0 = lowest payload byte". *)
Definition hexDigit (d : Z) : ascii :=
  ascii_of_N (Z.to_N (if d <? 10 then 48 + d else 65 + (d - 10))).

Definition hexToken (b : Z) : string :=
  String (hexDigit (b / 16)) (String (hexDigit (b mod 16)) EmptyString).

Definition hexTokens (payload : list Z) : list string := map hexToken payload.

(** ** Strings *)

(** [strings.HasPrefix s p]. *)
Fixpoint HasPrefix (s p : string) : bool :=
  match p, s with
  | EmptyString, _ => true
  | String a p', String b s' => bool_decide (a = b) && HasPrefix s' p'
  | String _ _, EmptyString => false
  end.

(** [strings.Contains s substr]. *)
Fixpoint Contains (s substr : string) : bool :=
  HasPrefix s substr ||
  match s with
  | EmptyString => false
  | String _ s' => Contains s' substr
  end.

(** [strings.Replace s old new (-1)] for a non-empty [old], the only use
    made of it here: occurrences are replaced from left to right without
    overlap. [skip] counts the bytes of a matched occurrence that remain to
    be passed over. *)
Fixpoint replaceFrom (old new : string) (skip : nat) (s : string) : string :=
  match s with
  | EmptyString => EmptyString
  | String c rest =>
      match skip with
      | S k => replaceFrom old new k rest
      | O =>
          if HasPrefix s old
          then new +:+ replaceFrom old new (pred (String.length old)) rest
          else String c (replaceFrom old new O rest)
      end
  end.

Definition Replace (s old new : string) : string := replaceFrom old new O s.

(** [strings.ReplaceAll] is [strings.Replace] with [n = -1]. *)
Definition ReplaceAll (s old new : string) : string := Replace s old new.

(** [strings.ToLower] on the ASCII letters. A byte above 0x7F is kept as it
    is; Go maps such runes through [unicode.ToLower], which yields none of
    the letters of "up" and "down", so the two tests made on the lowered
    name are the same. *)
Definition lowerAscii (c : ascii) : ascii :=
  let n := byte_of_ascii c in
  if (65 <=? n) && (n <=? 90) then ascii_of_N (Z.to_N (n + 32)) else c.

Fixpoint ToLower (s : string) : string :=
  match s with
  | EmptyString => EmptyString
  | String c rest => String (lowerAscii c) (ToLower rest)
  end.

(** ** Command dispatcher *)

(** [BlackArmController]; the HTTP client is the transport oracle below. *)
Record BlackArmController : Type := mkController {
  BaseURL : string;
  ctlInterface : string;
  MotorIDs : list Z
}.

(** [NewBlackArmController]. *)
Definition NewBlackArmController (baseURL interface_ deviceName : string)
  : BlackArmController :=
  let motorIDs :=
    if Contains deviceName "left" then [61; 62; 63; 64; 65; 66; 67]
    else if Contains deviceName "right" then [51; 52; 53; 54; 55; 56; 57]
    else [51; 52; 53; 54; 55; 56; 57] in
  mkController baseURL interface_ motorIDs.

(** What [Client.Post] answers: a transport failure or an HTTP status. *)
Inductive PostResult : Type :=
  | PostFailed
  | PostStatus (code : Z).

(** The bridge as seen by the write path: its answer to a frame may depend
    on the frames handed to it before. *)
Definition Transport : Type := list CANMessage -> CANMessage -> PostResult.

(** Where an error was wrapped by [fmt.Errorf("...: %v", err)]. *)
Inductive ErrContext : Type :=
  | CtxSetMode
  | CtxEnable
  | CtxDisable (motorID : Z)
  | CtxSetZero (motorID : Z)
  | CtxCleanError (motorID : Z)
  | CtxSetAngle (jointID : Z)
  | CtxSetSpeed (jointID : Z)
  | CtxReadRequest.

(** The errors of main.go, one constructor per message. *)
Inductive error : Type :=
  | ErrInvalidJoint (jointID : Z)
  | ErrCountMismatch (got want : nat)
  | ErrHTTPRequest
  | ErrHTTPStatus (code : Z)
  | ErrWrapped (ctx : ErrContext) (cause : error).

(** A computation over the log of frames handed to the transport. *)
Definition Bus (A : Type) : Type := list CANMessage -> A * list CANMessage.

Definition ret {A : Type} (a : A) : Bus A := fun log => (a, log).

Definition bind {A B : Type} (m : Bus A) (k : A -> Bus B) : Bus B :=
  fun log => let '(a, log') := m log in k a log'.

Notation "'do' x <- m ; k" := (bind m (fun x => k))
  (at level 10, x name, m at level 100, k at level 200).

(** Run [f] on each element in order, stopping at the first error. *)
Fixpoint forEach {A : Type} (f : A -> Bus (option error)) (l : list A)
  : Bus (option error) :=
  match l with
  | [] => ret None
  | x :: rest =>
      do r <- f x;
      match r with
      | Some e => ret (Some e)
      | None => forEach f rest
      end
  end.

(** [wrap ctx r]: [if err != nil { return fmt.Errorf(ctx, err) }]. *)
Definition wrap (ctx : ErrContext) (r : option error) : option error :=
  match r with
  | Some e => Some (ErrWrapped ctx e)
  | None => None
  end.

Section Dispatcher.

Variable tx : Transport.
Variable b : BlackArmController.

(** [sendCommand]: the frame is serialised and posted; anything but
    status 200 is an error. *)
Definition sendCommand (command : CANMessage) : Bus (option error) :=
  fun log =>
    (match tx log command with
     | PostFailed => Some ErrHTTPRequest
     | PostStatus code =>
         if code =? 200 then None else Some (ErrHTTPStatus code)
     end, log ++ [command]).

(** [isValidJoint]. *)
Definition isValidJoint (jointID : Z) : bool :=
  existsb (fun id => id =? jointID) (MotorIDs b).

(** The identifier [base + uint32(motorID)] of a write frame. *)
Definition writeID (base motorID : Z) : Z := u32 (base + u32 motorID).

(** The two frames of [enableSingleMotor]. *)
Definition setModeCommand (motorID : Z) : CANMessage :=
  mkCANMessage (ctlInterface b) (writeID 0x1200FD00 motorID)
    [0x05; 0x70; 0x00; 0x00; 0x01; 0x00; 0x00; 0x00] true.

Definition enableCommand (motorID : Z) : CANMessage :=
  mkCANMessage (ctlInterface b) (writeID 0x0300FD00 motorID)
    [0x00; 0x00; 0x00; 0x00; 0x00; 0x00; 0x00; 0x00] true.

(** [enableSingleMotor]. *)
Definition enableSingleMotor (motorID : Z) : Bus (option error) :=
  do r1 <- sendCommand (setModeCommand motorID);
  match r1 with
  | Some e => ret (Some (ErrWrapped CtxSetMode e))
  | None =>
      do r2 <- sendCommand (enableCommand motorID);
      ret (wrap CtxEnable r2)
  end.

(** [EnableMotor] on the "all joints" argument. *)
Definition EnableMotor_all : Bus (option error) :=
  forEach enableSingleMotor (MotorIDs b).

(** The frame of [DisableMotor] for one motor. *)
Definition disableCommand (motorID : Z) : CANMessage :=
  mkCANMessage (ctlInterface b) (writeID 0x0400FD00 motorID)
    [0x00; 0x00; 0x00; 0x00; 0x00; 0x00; 0x00; 0x00] true.

(** [DisableMotor]. *)
Definition DisableMotor : Bus (option error) :=
  forEach (fun motorID =>
             do r <- sendCommand (disableCommand motorID);
             ret (wrap (CtxDisable motorID) r))
          (MotorIDs b).

(** The frame of [setSingleMotorZero]. *)
Definition setZeroCommand (motorID : Z) : CANMessage :=
  mkCANMessage (ctlInterface b) (writeID 0x0600FD00 motorID)
    [0x01; 0x00; 0x00; 0x00; 0x00; 0x00; 0x00; 0x00] true.

(** [setSingleMotorZero]. *)
Definition setSingleMotorZero (motorID : Z) : Bus (option error) :=
  do r <- sendCommand (setZeroCommand motorID);
  ret (wrap (CtxSetZero motorID) r).

(** [SetMotorZero]. *)
Definition SetMotorZero : Bus (option error) :=
  forEach setSingleMotorZero (MotorIDs b).

(** [SetMotorZeroByIDs]: an id outside the arm is skipped. *)
Definition SetMotorZeroByIDs (motorIDs : list Z) : Bus (option error) :=
  match motorIDs with
  | [] => SetMotorZero
  | _ =>
      forEach (fun motorID =>
                 if isValidJoint motorID
                 then do r <- setSingleMotorZero motorID;
                      ret (wrap (CtxSetZero motorID) r)
                 else ret None)
              motorIDs
  end.

(** The frame of [CleanError] for one motor. *)
Definition cleanErrorCommand (motorID : Z) : CANMessage :=
  mkCANMessage (ctlInterface b) (writeID 0x0400FD00 motorID)
    [0x01; 0x00; 0x00; 0x00; 0x00; 0x00; 0x00; 0x00] true.

(** [CleanError]. *)
Definition CleanError : Bus (option error) :=
  forEach (fun motorID =>
             do r <- sendCommand (cleanErrorCommand motorID);
             ret (wrap (CtxCleanError motorID) r))
          (MotorIDs b).

(** The payload shared by the value-carrying setters:
    [data := []byte{lo, hi, 0x00, 0x00}], then the four bytes of the
    value's bits appended. *)
Definition valueData (lo hi : Z) (value : float32) : list Z :=
  [lo; hi; 0x00; 0x00] ++ PutUint32 (Float32bits value).

Definition valueCommand (lo hi : Z) (motorID : Z) (value : float32)
  : CANMessage :=
  mkCANMessage (ctlInterface b) (writeID 0x1200FD00 motorID)
    (valueData lo hi value) true.

(** The frames of [SetAngle], [SetSpeed], [SetMotorLocKp],
    [SetMotorSpeedKp], [SetMotorSpeedKi] and [SetMotorSpeedFiltGain]. *)
Definition angleCommand := valueCommand 0x16 0x70.
Definition speedCommand := valueCommand 0x24 0x70.
Definition locKpCommand := valueCommand 0x1E 0x70.
Definition speedKpCommand := valueCommand 0x1F 0x70.
Definition speedKiCommand := valueCommand 0x20 0x70.
Definition speedFiltGainCommand := valueCommand 0x21 0x70.

(** [SetAngle]. *)
Definition SetAngle (jointID : Z) (angle : float32) : Bus (option error) :=
  if isValidJoint jointID then
    do r <- sendCommand (angleCommand jointID angle);
    ret (wrap (CtxSetAngle jointID) r)
  else ret (Some (ErrInvalidJoint jointID)).

(** [SetSpeed]. *)
Definition SetSpeed (jointID : Z) (speed : float32) : Bus (option error) :=
  if isValidJoint jointID then
    do r <- sendCommand (speedCommand jointID speed);
    ret (wrap (CtxSetSpeed jointID) r)
  else ret (Some (ErrInvalidJoint jointID)).

(** The four gain setters return the transport's error as it is. *)
Definition setGain (command : Z -> float32 -> CANMessage)
    (motorID : Z) (value : float32) : Bus (option error) :=
  if isValidJoint motorID then sendCommand (command motorID value)
  else ret (Some (ErrInvalidJoint motorID)).

Definition SetMotorLocKp := setGain locKpCommand.
Definition SetMotorSpeedKp := setGain speedKpCommand.
Definition SetMotorSpeedKi := setGain speedKiCommand.
Definition SetMotorSpeedFiltGain := setGain speedFiltGainCommand.

(** [SetSpeeds]: sequential, stops at the first error. *)
Definition SetSpeeds (speeds : list float32) : Bus (option error) :=
  if bool_decide (length speeds ≠ length (MotorIDs b))
  then ret (Some (ErrCountMismatch (length speeds) (length (MotorIDs b))))
  else forEach (fun '(motorID, speed) => SetSpeed motorID speed)
               (zip (MotorIDs b) speeds).

(** The goroutines of [SetAngles], each [errChan <- b.SetAngle(id, angle)],
    run in the order [posts] (goroutine indices); the result of goroutine
    [i] is recorded under [i]. *)
Fixpoint runGoroutines (jobs : list (Z * float32)) (posts : list nat)
    (results : gmap nat (option error)) : Bus (gmap nat (option error)) :=
  match posts with
  | [] => ret results
  | i :: rest =>
      match jobs !! i with
      | Some (id, angle) =>
          do r <- SetAngle id angle;
          runGoroutines jobs rest (<[i := r]> results)
      | None => runGoroutines jobs rest results
      end
  end.

(** The receiving loop of [SetAngles]: the first non-nil error read from
    the channel is returned. *)
Fixpoint receive (delivered : list (option error)) : option error :=
  match delivered with
  | [] => None
  | Some e :: _ => Some e
  | None :: rest => receive rest
  end.

(** [SetAngles]. The length check comes first. After it one goroutine per
    joint is started; a schedule gives the order [posts] in which the
    goroutines post their frame and the order [deliveries] in which their
    results reach the channel (both enumerate the goroutine indices). The
    channel is buffered, so every goroutine runs to its end whatever the
    receiving loop returns: the log is the one after all of them. *)
Definition SetAngles (angles : list float32) (posts deliveries : list nat)
  : Bus (option error) :=
  if bool_decide (length angles ≠ length (MotorIDs b))
  then ret (Some (ErrCountMismatch (length angles) (length (MotorIDs b))))
  else
    do results <- runGoroutines (zip (MotorIDs b) angles) posts ∅;
    ret (receive (map (fun i => default None (results !! i)) deliveries)).

(** [ReturnZero]. *)
Definition ReturnZero (posts deliveries : list nat) : Bus (option error) :=
  SetAngles (replicate (length (MotorIDs b)) f32_zero) posts deliveries.

End Dispatcher.

(** ** Feedback acquisition *)

(** What one [client.Get] on the listening URL yields: a transport failure,
    a body that does not parse, or the [hex_data] of the messages. *)
Inductive Poll : Type :=
  | PollFailed
  | PollUnparsable
  | PollMessages (messages : list (list string)).

(** [streamState] of [listenOneMotorRound]. *)
Record streamState : Type := mkStreamState {
  seen : gset Z;
  prevBits : Z;
  prevVal : float32;
  havePrev : bool;
  repeats : Z;
  captured : bool
}.

(** [streamState{seen: make(map[uint32]bool)}]. *)
Definition initialState : streamState :=
  mkStreamState ∅ 0 (Float32frombits 0) false 0 false.

(** The [return true, ...] statement that ended a round: the one guarded by
    [!state.captured && state.havePrev], or the one guarded by
    [state.repeats >= 2]. *)
Inductive ReturnSite : Type :=
  | AtFirstRepeat
  | AtSecondRepeat.

Inductive Step : Type :=
  | Next (s : streamState)
  | Settled (site : ReturnSite) (value : float64).

(** The body of the message loop of [listenOneMotorRound]. *)
Definition observe (s : streamState) (hex : list string) : Step :=
  match decode hex with
  | None => Next s
  | Some (idx, val32) =>
      let u := Float32bits val32 in
      if idx =? idxLocRef then
        if bool_decide (u ∈ seen s) then
          let s1 := mkStreamState (seen s) (prevBits s) (prevVal s)
                      (havePrev s) (repeats s + 1) (captured s) in
          if negb (captured s1) && havePrev s1
          then Settled AtFirstRepeat (float64_of_float32 (prevVal s1))
          else if 2 <=? repeats s1
          then Settled AtSecondRepeat (float64_of_float32 (prevVal s1))
          else Next s1
        else
          Next (mkStreamState ({[u]} ∪ seen s) u val32 true
                  (repeats s) (captured s))
      else Next s
  end.

(** The message loop over one batch: the step reached and the messages of
    the batch that were not looked at. *)
Fixpoint observeAll (s : streamState) (messages : list (list string))
  : Step * list (list string) :=
  match messages with
  | [] => (Next s, [])
  | hex :: rest =>
      match observe s hex with
      | Next s' => observeAll s' rest
      | Settled site v => (Settled site v, rest)
      end
  end.

(** The messages carried by a list of polls, in arrival order. *)
Fixpoint pending (polls : list Poll) : list (list string) :=
  match polls with
  | [] => []
  | PollMessages messages :: rest => messages ++ pending rest
  | _ :: rest => pending rest
  end.

(** The polling loop of [listenOneMotorRound] over the polls answered before
    the deadline: how the round ended, and the messages left unread. *)
Fixpoint listenLoop (s : streamState) (polls : list Poll)
  : option (ReturnSite * float64) * list (list string) :=
  match polls with
  | [] => (None, [])
  | PollFailed :: rest => listenLoop s rest
  | PollUnparsable :: rest => listenLoop s rest
  | PollMessages [] :: rest => listenLoop s rest
  | PollMessages messages :: rest =>
      match observeAll s messages with
      | (Next s', _) => listenLoop s' rest
      | (Settled site v, unread) => (Some (site, v), unread ++ pending rest)
      end
  end.

(** [listenOneMotorRound]: [(true, value)] when settled, [(false, 0)] when
    the deadline passed. *)
Definition listenOneMotorRound (polls : list Poll) : bool * float64 :=
  match fst (listenLoop initialState polls) with
  | Some (_, v) => (true, v)
  | None => (false, float64_of_float32 f32_zero)
  end.

(** The locals of [listenMotorParams]: three [*float64] and the set of
    indices already taken. *)
Record paramState : Type := mkParamState {
  locKp : option float64;
  spdKp : option float64;
  spdKi : option float64;
  seenIdx : gset Z
}.

Definition takeOnce (idx want : Z) (v : float64)
    (slot : option float64) (seenSet : gset Z) : option float64 * gset Z :=
  if (idx =? want) && negb (bool_decide (want ∈ seenSet))
  then (Some v, {[want]} ∪ seenSet)
  else (slot, seenSet).

(** The body of the message loop of [listenMotorParams]; the boolean tells
    that all three values are present and the function returns. *)
Definition observeParam (s : paramState) (hex : list string)
  : paramState * bool :=
  match decode hex with
  | None => (s, false)
  | Some (idx, val32) =>
      let v := float64_of_float32 val32 in
      let '(k1, seen1) := takeOnce idx idxLocKp v (locKp s) (seenIdx s) in
      let '(k2, seen2) := takeOnce idx idxSpdKp v (spdKp s) seen1 in
      let '(k3, seen3) := takeOnce idx idxSpdKi v (spdKi s) seen2 in
      (mkParamState k1 k2 k3 seen3,
       bool_decide (is_Some k1) && bool_decide (is_Some k2)
         && bool_decide (is_Some k3))
  end.

Fixpoint observeParams (s : paramState) (messages : list (list string))
  : paramState * bool :=
  match messages with
  | [] => (s, false)
  | hex :: rest =>
      match observeParam s hex with
      | (s', true) => (s', true)
      | (s', false) => observeParams s' rest
      end
  end.

Fixpoint paramLoop (s : paramState) (polls : list Poll) : paramState :=
  match polls with
  | [] => s
  | PollMessages messages :: rest =>
      match observeParams s messages with
      | (s', true) => s'
      | (s', false) => paramLoop s' rest
      end
  | _ :: rest => paramLoop s rest
  end.

(** [listenMotorParams]. *)
Definition listenMotorParams (polls : list Poll)
  : option float64 * option float64 * option float64 :=
  let s := paramLoop (mkParamState None None None ∅) polls in
  (locKp s, spdKp s, spdKi s).

(** [sendReadForMotor]: one read request per index; only a failed post is
    an error, the status of the answer is not looked at. *)
Definition readRequest (iface : string) (motorID idx : Z) : CANMessage :=
  mkCANMessage iface (buildReadReqID defaultHostID (u8 motorID))
    (buildReadReqData idx) true.

Definition sendReadForMotor (tx : Transport) (iface : string) (motorID : Z)
    (indices : list Z) : Bus (option error) :=
  forEach (fun idx =>
             fun log =>
               let cmd := readRequest iface motorID idx in
               (match tx log cmd with
                | PostFailed => Some ErrHTTPRequest
                | PostStatus _ => None
                end, log ++ [cmd]))
          indices.

(** The last loop of [QueryCurrentAngles]: one listening round per motor,
    the [i]-th round being answered by [roundPolls i]; a round that did not
    settle adds nothing. *)
Fixpoint collectAngles (roundPolls : nat -> list Poll) (i : nat)
    (motorIDs : list Z) (angles : gmap Z float64) : gmap Z float64 :=
  match motorIDs with
  | [] => angles
  | m :: rest =>
      let '(ok, angle) := listenOneMotorRound (roundPolls i) in
      collectAngles roundPolls (S i) rest
        (if ok then <[m := angle]> angles else angles)
  end.

(** The [params] map filled from the first motor's parameter round. *)
Definition collectParams (paramPolls : list Poll) (motorIDs : list Z)
  : gmap string float64 :=
  match motorIDs with
  | [] => ∅
  | _ :: _ =>
      let '(k1, k2, k3) := listenMotorParams paramPolls in
      let p1 := match k1 with Some v => <["loc_kp"%string := v]> ∅ | None => ∅ end in
      let p2 := match k2 with Some v => <["spd_kp"%string := v]> p1 | None => p1 end in
      match k3 with Some v => <["spd_ki"%string := v]> p2 | None => p2 end
  end.

(** [QueryCurrentAngles]: the two maps and the error. The read requests go
    out first; a failed post ends the call with [nil, nil, err]. *)
Definition QueryCurrentAngles (tx : Transport) (interfaceName : string)
    (motorIDs : list Z) (paramPolls : list Poll)
    (roundPolls : nat -> list Poll)
  : Bus (gmap Z float64 * gmap string float64 * option error) :=
  let indices := [idxLocRef; idxLocKp; idxSpdKp; idxSpdKi] in
  do r <- forEach (fun m => sendReadForMotor tx interfaceName m indices)
                  motorIDs;
  match r with
  | Some e => ret (∅, ∅, Some (ErrWrapped CtxReadRequest e))
  | None =>
      let params := collectParams paramPolls motorIDs in
      let angles := collectAngles roundPolls 0 motorIDs ∅ in
      ret (angles, params, None)
  end.

(** ** Sequence transforms *)

(** [JointAngleSet]: one way-point. *)
Record JointAngleSet : Type := mkJointAngleSet {
  wpName : string;
  Values : gmap string float32
}.

(** [JointSequence]. *)
Record JointSequence : Type := mkJointSequence {
  Name : string;
  ArmType : string;
  ArmModel : string;
  Angles : list JointAngleSet
}.

Global Instance JointAngleSet_eq_dec : EqDecision JointAngleSet.
Proof. solve_decision. Defined.

Global Instance JointSequence_eq_dec : EqDecision JointSequence.
Proof. solve_decision. Defined.

(** The zero value of [JointAngleSet], as [make] fills a slice with. *)
Definition zeroAngleSet : JointAngleSet := mkJointAngleSet "" ∅.

(** The loop [for i, angle := range src { dst[n-1-i] = angle }]. *)
Fixpoint fillReversed (n i : nat) (src dst : list JointAngleSet)
  : list JointAngleSet :=
  match src with
  | [] => dst
  | angle :: rest => fillReversed n (S i) rest (<[(n - 1 - i)%nat := angle]> dst)
  end.

(** The block that turns a sequence around: with more than one way-point,
    the slice without its last way-point is copied back to front into a
    fresh slice; otherwise the way-points stay as they are. *)
Definition reverseWithoutLast (angles : list JointAngleSet)
  : list JointAngleSet :=
  if bool_decide (1 < length angles)%nat then
    let withoutLast := take (length angles - 1) angles in
    let n := length withoutLast in
    fillReversed n 0 withoutLast (replicate n zeroAngleSet)
  else angles.

(** The files written so far, by path, each holding the sequences that
    were serialised into it. *)
Definition Disk : Type := gmap string (list JointSequence).

Inductive saveError : Type :=
  | ErrMarshal
  | ErrWriteFile.

(** [json.MarshalIndent] refuses a NaN or an infinite number. *)
Definition marshalOK (sequences : list JointSequence) : bool :=
  forallb (fun sequence =>
    forallb (fun set =>
      bool_decide (map_Forall (fun _ v => f32_is_nan_or_inf v = false)
                              (Values set)))
      (Angles sequence))
    sequences.

(** The file name of [saveMergedSequence]. *)
Definition mergedFileName (mergedName : string) : string :=
  let fileName := ReplaceAll mergedName " " "_" in
  let fileName := ReplaceAll fileName "/" "_" in
  ReplaceAll fileName "\" "_".

Definition mergedFilePath (mergedName : string) : string :=
  mergedFileName mergedName +:+ ".json".

(** [saveMergedSequence]; [canWrite] tells whether [ioutil.WriteFile]
    succeeds on a path. A write that fails after the file was opened may
    leave it empty or partial; the files are followed on the paths where
    the writes succeed only, and the disk returned with an error says
    nothing of the file that was being written. *)
Definition saveMergedSequence (canWrite : string -> bool)
    (mergedName : string) (sequences : list JointSequence) (disk : Disk)
  : option saveError * Disk :=
  let filePath := mergedFilePath mergedName in
  if negb (marshalOK sequences) then (Some ErrMarshal, disk)
  else if negb (canWrite filePath) then (Some ErrWriteFile, disk)
  else (None, <[filePath := sequences]> disk).

(** The decoded body of a merge request. *)
Record MergeRequest : Type := mkMergeRequest {
  Sequence1Name : string;
  Sequence2Name : string;
  MergedName : string;
  reqArmModel : string
}.

(** The [Data] field of the response. *)
Inductive ResponseData : Type :=
  | NoData
  | DataSequences (sequences : list JointSequence)
  | DataUpDown (up down : list JointSequence) (up_file down_file : string).

(** The messages of [mergeSequencesHandler], one constructor per text. *)
Inductive MergeMessage : Type :=
  | MsgNotFound
  | MsgUpSaveFailed (e : saveError)
  | MsgUpSavedDownFailed (upName : string) (e : saveError)
  | MsgUpAndDown (upName downName : string)
  | MsgDownSaveFailed (e : saveError)
  | MsgMergeSaveFailed (e : saveError)
  | MsgMerged (name1 name2 mergedName : string).

(** [ControlResponse]. *)
Record ControlResponse : Type := mkControlResponse {
  Success : bool;
  Message : MergeMessage;
  RespData : ResponseData
}.

(** The search loop of the handler has no [break]: the last sequence of
    that name is the one kept. *)
Fixpoint findSequence (name : string) (sequences : list JointSequence)
    (found : option JointSequence) : option JointSequence :=
  match sequences with
  | [] => found
  | s :: rest =>
      findSequence name rest
        (if bool_decide (Name s = name) then Some s else found)
  end.

(** The name of the synthetic first way-point. *)
Definition initName : string := "初始角度".

(** [Angle2set62] and [Angle2set52]: the offsets of joints 62 and 52, whose
    signs are flipped for the "new" arm. *)
Definition Angle2set62 (armModel : string) : float32 :=
  if bool_decide (armModel = "new"%string) then fneg32 f32_0_1 else f32_0_1.

Definition Angle2set52 (armModel : string) : float32 :=
  if bool_decide (armModel = "new"%string)
  then fneg32 f32_neg_0_1 else f32_neg_0_1.

(** [leftInitAngle] and [rightInitAngle]. *)
Definition leftInitAngle (armModel : string) : JointAngleSet :=
  mkJointAngleSet initName
    (list_to_map
       [("61", f32_zero); ("62", Angle2set62 armModel); ("63", f32_zero);
        ("64", f32_zero); ("65", f32_zero); ("66", f32_zero);
        ("67", f32_zero)]%string).

Definition rightInitAngle (armModel : string) : JointAngleSet :=
  mkJointAngleSet initName
    (list_to_map
       [("51", f32_zero); ("52", Angle2set52 armModel); ("53", f32_zero);
        ("54", f32_zero); ("55", f32_zero); ("56", f32_zero);
        ("57", f32_zero)]%string).

(** [downName]: three replacements, one after the other. *)
Definition downName (mergedName : string) : string :=
  let n := Replace mergedName "up" "down" in
  let n := Replace n "Up" "down" in
  Replace n "UP" "DOWN".

(** The generation tag: the request's, else the first sequence's, else
    "old". *)
Definition resolveArmModel (req : MergeRequest) (leftSeq : JointSequence)
  : string :=
  let armModel := reqArmModel req in
  let armModel :=
    if bool_decide (armModel = ""%string) then ArmModel leftSeq
    else armModel in
  if bool_decide (armModel = ""%string) then "old"%string else armModel.

Definition withAngles (s : JointSequence) (armModel : string)
    (angles : list JointAngleSet) : JointSequence :=
  mkJointSequence (Name s) (ArmType s) armModel angles.

(** [mergeSequencesHandler], from the decoded request on: the response and
    the files. [config] is [ws.config.JointSequences]. *)
Definition mergeSequencesHandler (canWrite : string -> bool)
    (config : list JointSequence) (req : MergeRequest) (disk : Disk)
  : ControlResponse * Disk :=
  match findSequence (Sequence1Name req) config None,
        findSequence (Sequence2Name req) config None with
  | Some sequence1, Some sequence2 =>
      let armModel := resolveArmModel req sequence1 in
      let isUpMerge := Contains (ToLower (MergedName req)) "up" in
      let isDownMerge := Contains (ToLower (MergedName req)) "down" in
      if isUpMerge then
        let leftSeq :=
          withAngles sequence1 armModel
            (leftInitAngle armModel :: Angles sequence1) in
        let rightSeq :=
          withAngles sequence2 armModel
            (rightInitAngle armModel :: Angles sequence2) in
        let mergedSequences := [leftSeq; rightSeq] in
        match saveMergedSequence canWrite (MergedName req)
                mergedSequences disk with
        | (Some e, disk1) =>
            (mkControlResponse false (MsgUpSaveFailed e) NoData, disk1)
        | (None, disk1) =>
            let down := downName (MergedName req) in
            let leftSeqDown :=
              mkJointSequence (Replace (Name leftSeq) "up" "down")
                (ArmType leftSeq) (ArmModel leftSeq)
                (reverseWithoutLast (Angles leftSeq)) in
            let rightSeqDown :=
              mkJointSequence (Replace (Name rightSeq) "up" "down")
                (ArmType rightSeq) (ArmModel rightSeq)
                (reverseWithoutLast (Angles rightSeq)) in
            let mergedSequencesDown := [leftSeqDown; rightSeqDown] in
            match saveMergedSequence canWrite down
                    mergedSequencesDown disk1 with
            | (Some e, disk2) =>
                (mkControlResponse true
                   (MsgUpSavedDownFailed (MergedName req) e)
                   (DataSequences mergedSequences), disk2)
            | (None, disk2) =>
                (mkControlResponse true
                   (MsgUpAndDown (MergedName req) down)
                   (DataUpDown mergedSequences mergedSequencesDown
                      (MergedName req +:+ ".json") (down +:+ ".json")),
                 disk2)
            end
        end
      else if isDownMerge then
        let leftSeq :=
          withAngles sequence1 armModel
            (reverseWithoutLast (Angles sequence1)) in
        let rightSeq :=
          withAngles sequence2 armModel
            (reverseWithoutLast (Angles sequence2)) in
        let mergedSequences := [leftSeq; rightSeq] in
        match saveMergedSequence canWrite (MergedName req)
                mergedSequences disk with
        | (Some e, disk1) =>
            (mkControlResponse false (MsgDownSaveFailed e) NoData, disk1)
        | (None, disk1) =>
            (mkControlResponse true
               (MsgMerged (Sequence1Name req) (Sequence2Name req)
                  (MergedName req))
               (DataSequences mergedSequences), disk1)
        end
      else
        let mergedSequences :=
          [withAngles sequence1 armModel (Angles sequence1);
           withAngles sequence2 armModel (Angles sequence2)] in
        match saveMergedSequence canWrite (MergedName req)
                mergedSequences disk with
        | (Some e, disk1) =>
            (mkControlResponse false (MsgMergeSaveFailed e) NoData, disk1)
        | (None, disk1) =>
            (mkControlResponse true
               (MsgMerged (Sequence1Name req) (Sequence2Name req)
                  (MergedName req))
               (DataSequences mergedSequences), disk1)
        end
  | _, _ => (mkControlResponse false MsgNotFound NoData, disk)
  end.

(** ** Vocabulary of the properties *)

(** The frames the write path builds for a motor: one constructor per
    frame-building site of main.go. *)
Inductive isWriteFrame (b : BlackArmController) (motorID : Z)
  : CANMessage -> Prop :=
  | wf_setMode : isWriteFrame b motorID (setModeCommand b motorID)
  | wf_enable : isWriteFrame b motorID (enableCommand b motorID)
  | wf_disable : isWriteFrame b motorID (disableCommand b motorID)
  | wf_setZero : isWriteFrame b motorID (setZeroCommand b motorID)
  | wf_cleanError : isWriteFrame b motorID (cleanErrorCommand b motorID)
  | wf_angle v : isWriteFrame b motorID (angleCommand b motorID v)
  | wf_speed v : isWriteFrame b motorID (speedCommand b motorID v)
  | wf_locKp v : isWriteFrame b motorID (locKpCommand b motorID v)
  | wf_speedKp v : isWriteFrame b motorID (speedKpCommand b motorID v)
  | wf_speedKi v : isWriteFrame b motorID (speedKiCommand b motorID v)
  | wf_speedFiltGain v :
      isWriteFrame b motorID (speedFiltGainCommand b motorID v).

(** The operations whose frame carries no value, and the frame each puts on
    the bus (for enable, the drive-enable frame that follows the mode
    frame). *)
Inductive ValuelessOp : Type :=
  | OpEnable
  | OpDisable
  | OpSetZero
  | OpClearFault.

Definition valuelessFrame (b : BlackArmController) (op : ValuelessOp)
    (motorID : Z) : CANMessage :=
  match op with
  | OpEnable => enableCommand b motorID
  | OpDisable => disableCommand b motorID
  | OpSetZero => setZeroCommand b motorID
  | OpClearFault => cleanErrorCommand b motorID
  end.

(** The leading command byte and the low address byte of an identifier. *)
Definition commandByte (id : Z) : Z := Z.land (Z.shiftr id 24) 0xFF.
Definition lowByte (id : Z) : Z := Z.land id 0xFF.

(** The payload with register index [idx] laid out as the setters lay out
    theirs. *)
Definition encode (idx : Z) (value : float32) : list Z :=
  valueData (Z.land idx 0xFF) (Z.land (Z.shiftr idx 8) 0xFF) value.

(** The raw pattern a message contributes to the convergence rule: the bits
    of a target-angle message, nothing for any other message. *)
Definition rawPattern (hex : list string) : option Z :=
  match decode hex with
  | Some (idx, val32) =>
      if idx =? idxLocRef then Some (Float32bits val32) else None
  | None => None
  end.

Definition rawStream (messages : list (list string)) : list Z :=
  omap rawPattern messages.

(** A target-angle message as the bridge hands it over. *)
Definition locRefMessage (u : Z) : list string :=
  hexTokens (encode idxLocRef (Float32frombits u)).

(** The states the message loop can be in: the initial one, and any state
    it continues with. *)
Inductive Reachable : streamState -> Prop :=
  | reach_init : Reachable initialState
  | reach_step s hex s' :
      Reachable s -> observe s hex = Next s' -> Reachable s'.

(** The rounds of [QueryCurrentAngles] that settled, as (motor, value)
    pairs in the order of the rounds, the first round having number [i]. *)
Fixpoint settledRounds (roundPolls : nat -> list Poll) (i : nat)
    (motorIDs : list Z) : list (Z * float64) :=
  match motorIDs with
  | [] => []
  | m :: rest =>
      let '(ok, angle) := listenOneMotorRound (roundPolls i) in
      (if ok then [(m, angle)] else []) ++ settledRounds roundPolls (S i) rest
  end.

(** The file-name rule in the words of the interface description: every
    byte that is not a letter or a digit becomes an underscore. *)
Definition isAlnum (c : ascii) : bool :=
  let n := byte_of_ascii c in
  ((48 <=? n) && (n <=? 57)) || ((65 <=? n) && (n <=? 90))
  || ((97 <=? n) && (n <=? 122)).

Fixpoint mapString (f : ascii -> ascii) (s : string) : string :=
  match s with
  | EmptyString => EmptyString
  | String c rest => String (f c) (mapString f rest)
  end.

Definition underscoreNonAlnum (name : string) : string :=
  mapString (fun c => if isAlnum c then c else "_"%char) name.

(** The naming rule in the words of the specification, as one scan from
    left to right: each occurrence of the token "up" becomes "down", of "Up"
    becomes "down" and of "UP" becomes "DOWN"; every other byte is kept, an
    occurrence written in another mix of cases ("uP") included. *)
Fixpoint substituteTokens (s : string) : string :=
  match s with
  | EmptyString => EmptyString
  | String x t =>
      match t with
      | EmptyString => String x EmptyString
      | String y rest =>
          if bool_decide (x = "u"%char /\ y = "p"%char)
          then "down" +:+ substituteTokens rest
          else if bool_decide (x = "U"%char /\ y = "p"%char)
          then "down" +:+ substituteTokens rest
          else if bool_decide (x = "U"%char /\ y = "P"%char)
          then "DOWN" +:+ substituteTokens rest
          else String x (substituteTokens t)
      end
  end.

(** The rule the code follows: blank, slash and backslash. *)
Definition underscoreSeparators (name : string) : string :=
  mapString (fun c =>
               if bool_decide (c = " "%char) || bool_decide (c = "/"%char)
                  || bool_decide (c = "\"%char)
               then "_"%char else c) name.

(** What a state remembers of the patterns [pre] read so far, none of them
    repeated: they are the seen set, and the last of them is the value
    held. *)
Definition Tracks (pre : list Z) (s : streamState) : Prop :=
  NoDup pre
  /\ seen s = list_to_set pre
  /\ captured s = false
  /\ repeats s = 0
  /\ match last pre with
     | None => havePrev s = false
     | Some w =>
         havePrev s = true /\ prevBits s = w /\ prevVal s = Float32frombits w
     end.

(** What [marshalOK] asks of one sequence. *)
Definition anglesFinite (angles : list JointAngleSet) : bool :=
  forallb (fun set =>
             bool_decide (map_Forall (fun _ v => f32_is_nan_or_inf v = false)
                                     (Values set))) angles.

(** The way-points of the left sequence of the ascending pair and of the
    derived descending pair in a response that carries both. *)
Definition upLeftAngles (resp : ControlResponse) : option (list JointAngleSet) :=
  match RespData resp with
  | DataUpDown (leftSeq :: _) _ _ _ => Some (Angles leftSeq)
  | _ => None
  end.

Definition downLeftAngles (resp : ControlResponse)
  : option (list JointAngleSet) :=
  match RespData resp with
  | DataUpDown _ (leftSeq :: _) _ _ => Some (Angles leftSeq)
  | _ => None
  end.

(** ** Concrete arms and transports used in the examples *)

Definition leftArm : BlackArmController :=
  NewBlackArmController "http://localhost:5260" "can0" "left_arm".

Definition rightArm : BlackArmController :=
  NewBlackArmController "http://localhost:5260" "can1" "right_arm".

(** A bridge that accepts every frame. *)
Definition okTransport : Transport := fun _ _ => PostStatus 200.

(** A recorded pair of sequences and a request to merge them upwards. *)
Definition wayPoint (name : string) (joint : string) (bits : Z) : JointAngleSet :=
  mkJointAngleSet name (<[joint := Float32frombits bits]> ∅).

Definition exampleConfig : list JointSequence :=
  [mkJointSequence "rec_left" "left" ""
     [wayPoint "p1" "61" 0x3F000000; wayPoint "p2" "62" 0x3F800000;
      wayPoint "p3" "63" 0x3FC00000];
   mkJointSequence "rec_right" "right" ""
     [wayPoint "q1" "51" 0x3F000000; wayPoint "q2" "52" 0x3F800000]].

Definition exampleRequest : MergeRequest :=
  mkMergeRequest "rec_left" "rec_right" "UP_to_rest" "old".

Definition alwaysWritable : string -> bool := fun _ => true.

(** Seven rounds of which the first and the third settle. *)
Definition twoOfSeven (i : nat) : list Poll :=
  match i with
  | 0%nat => [PollMessages [locRefMessage 0x3F000000; locRefMessage 0x3F000000]]
  | 2%nat => [PollFailed;
              PollMessages [locRefMessage 0x3F800000];
              PollMessages [locRefMessage 0x3F800000]]
  | 4%nat => [PollMessages [locRefMessage 0x3FC00000]]
  | _ => [PollUnparsable; PollMessages []]
  end.

(** ** Recorded sequences: files and memory *)

(** [determineArmType]: the two loops tell whether every id lies in the
    range of the right arm, or of the left arm. *)
Definition determineArmType (motorIDs : list Z) : string :=
  if bool_decide (length motorIDs = 0%nat) then "unknown"
  else if forallb (fun id => negb ((id <? 51) || (57 <? id))) motorIDs
  then "right"
  else if forallb (fun id => negb ((id <? 61) || (67 <? id))) motorIDs
  then "left"
  else "unknown".

(** The path [saveJointSequence] and [deleteJointSequence] build for a
    sequence name. *)
Definition sequenceFilePath (sequenceName : string) : string :=
  let fileName := ReplaceAll sequenceName " " "_" in
  let fileName := ReplaceAll fileName "/" "_" in
  let fileName := ReplaceAll fileName "\" "_" in
  "json/" +:+ fileName +:+ ".json".

(** What the two functions touch of the server: the sequence files of the
    sequence directory, by path, [ws.config.JointSequences], and whether
    the marker file [.gitkeep] of the directory exists. *)
Record SequenceStore : Type := mkSequenceStore {
  seqFiles : gmap string JointSequence;
  JointSequences : list JointSequence;
  gitkeep : bool
}.

(** The file [ensureJSONDir] writes in a directory. *)
Definition gitkeepPath (dirPath : string) : string := dirPath +:+ "/.gitkeep".

(** [ensureJSONDir]: the empty marker file is written; its callers only log
    the error. A refused write is taken to leave the marker as it was. *)
Definition ensureJSONDir (canWrite : string -> bool) (dirPath : string)
    (st : SequenceStore) : SequenceStore :=
  mkSequenceStore (seqFiles st) (JointSequences st)
    (gitkeep st || canWrite (gitkeepPath dirPath)).

(** [saveJointSequence]: the marker file is written first; then the
    sequence is serialised and written, and appended to the sequences in
    memory. On an error the sequences in memory are as before; as for
    [saveMergedSequence], the store returned with an error says nothing of
    the file that was being written. *)
Definition saveJointSequence (canWrite : string -> bool)
    (sequence : JointSequence) (st : SequenceStore)
  : option saveError * SequenceStore :=
  let st0 := ensureJSONDir canWrite "json" st in
  let filePath := sequenceFilePath (Name sequence) in
  if negb (marshalOK [sequence]) then (Some ErrMarshal, st0)
  else if negb (canWrite filePath) then (Some ErrWriteFile, st0)
  else (None,
        mkSequenceStore (<[filePath := sequence]> (seqFiles st0))
          (JointSequences st0 ++ [sequence]) (gitkeep st0)).

(** [deleteJointSequence]: the file is removed, a file that does not exist
    being no error; then every sequence of that name is dropped from
    memory. [canRemove] tells whether [os.Remove] succeeds on an existing
    file; when it does not, nothing changes. *)
Definition deleteJointSequence (canRemove : string -> bool)
    (sequenceName : string) (st : SequenceStore)
  : bool * SequenceStore :=
  let filePath := sequenceFilePath sequenceName in
  let kept :=
    filter (fun seq => Name seq <> sequenceName) (JointSequences st) in
  match seqFiles st !! filePath with
  | Some _ =>
      if canRemove filePath
      then (true,
            mkSequenceStore (delete filePath (seqFiles st)) kept (gitkeep st))
      else (false, st)
  | None => (true, mkSequenceStore (seqFiles st) kept (gitkeep st))
  end.

(** ** Playing a sequence *)

Definition isDigit (c : Z) : bool := (48 <=? c) && (c <=? 57).

(** The digits of [strconv.Atoi], most significant first. *)
Fixpoint decimalValue (digits : list Z) (acc : Z) : option Z :=
  match digits with
  | [] => Some acc
  | c :: rest =>
      if isDigit c then decimalValue rest (acc * 10 + (c - 48)) else None
  end.

(** [strconv.Atoi] on a 64-bit platform, [None] standing for a non-nil
    error: an optional sign, then one digit at least and digits only, the
    value within the range of [int]. The fast path for short strings and
    [ParseInt(s, 10, 0)] agree on this. *)
Definition Atoi (s : string) : option Z :=
  match bytes_of_string s with
  | [] => None
  | c :: rest =>
      let '(negative, digits) :=
        if c =? 45 then (true, rest)
        else if c =? 43 then (false, rest)
        else (false, c :: rest) in
      match digits with
      | [] => None
      | _ =>
          match decimalValue digits 0 with
          | None => None
          | Some n =>
              let v := if negative : bool then - n else n in
              if (- 2 ^ 63 <=? v) && (v <=? 2 ^ 63 - 1) then Some v else None
          end
      end
  end.

(** The inner loop of [executeSequenceDirect] over the entries of one
    way-point, in the order the map iteration yields them: a key that is no
    number is passed over, and a failed [SetAngle] is logged and the loop
    goes on. The result counts the entries that were logged as failed. *)
Fixpoint setWayPoint (tx : Transport) (b : BlackArmController)
    (entries : list (string * float32)) : Bus nat :=
  match entries with
  | [] => ret 0%nat
  | (motorIDStr, angle) :: rest =>
      match Atoi motorIDStr with
      | None => do n <- setWayPoint tx b rest; ret (S n)
      | Some motorID =>
          do r <- SetAngle tx b motorID angle;
          do n <- setWayPoint tx b rest;
          ret (match r with Some _ => S n | None => n end)
      end
  end.

(** [executeSequenceDirect]: the way-points in order. Go leaves the order
    of a map iteration open: [order] gives, for the values of a way-point,
    the order in which its entries come. *)
Fixpoint executeWayPoints (tx : Transport) (b : BlackArmController)
    (order : gmap string float32 -> list (string * float32))
    (wayPoints : list JointAngleSet) : Bus nat :=
  match wayPoints with
  | [] => ret 0%nat
  | angleSet :: rest =>
      do n <- setWayPoint tx b (order (Values angleSet));
      do k <- executeWayPoints tx b order rest;
      ret (n + k)%nat
  end.

Definition executeSequenceDirect (tx : Transport) (b : BlackArmController)
    (order : gmap string float32 -> list (string * float32))
    (sequence : JointSequence) : Bus nat :=
  executeWayPoints tx b order (Angles sequence).

(** ** Hand commands *)

(** The message [sendHandCommandDirect] posts: a map with the keys
    interface, id and data, and no extended flag. *)
Record HandMessage : Type := mkHandMessage {
  handInterface : string;
  handID : Z;
  handData : list Z
}.

Inductive handError : Type :=
  | ErrHandTooShort
  | ErrHandPost
  | ErrHandStatus (code : Z).

(** [values[i]] for an index the length check has covered. *)
Definition valueAt (values : list Z) (i : nat) : Z := default 0 (values !! i).

(** [sendHandCommandDirect]: fewer than six values are refused before
    anything is posted; else the control code 0x01 and the first six
    values, each converted to a byte. *)
Definition sendHandCommandDirect (post : HandMessage -> PostResult)
    (interfaceName : string) (deviceID : Z) (values : list Z)
    (log : list HandMessage) : option handError * list HandMessage :=
  if (length values <? 6)%nat then (Some ErrHandTooShort, log)
  else
    let data :=
      ((((([0x01] ++ [u8 (valueAt values 0)]) ++ [u8 (valueAt values 1)])
          ++ [u8 (valueAt values 2)]) ++ [u8 (valueAt values 3)])
        ++ [u8 (valueAt values 4)]) ++ [u8 (valueAt values 5)] in
    let canMessage := mkHandMessage interfaceName deviceID data in
    (match post canMessage with
     | PostFailed => Some ErrHandPost
     | PostStatus code =>
         if code =? 200 then None else Some (ErrHandStatus code)
     end, log ++ [canMessage]).

(** ** Vocabulary of the further properties *)

(** What [SetAngle] can report for a joint of the arm. *)
Definition transportErrorFor (b : BlackArmController) (r : option error) : Prop :=
  match r with
  | None => True
  | Some e =>
      exists m cause,
        m ∈ MotorIDs b /\ e = ErrWrapped (CtxSetAngle m) cause
        /\ (cause = ErrHTTPRequest
            \/ exists code, code <> 200 /\ cause = ErrHTTPStatus code)
  end.


(** A byte that [strconv.ParseUint] takes as a digit of base 16. *)
Definition isHexDigit (c : Z) : bool :=
  match digitVal c with
  | Some d => d <? 16
  | None => false
  end.

(** The number a string of hex digits writes, most significant digit
    first, continuing from [acc]. *)
Definition hexNumber (acc : Z) (digits : list Z) : Z :=
  foldl (fun n c => 16 * n + default 0 (digitVal c)) acc digits.

(** The value carried by the first message that decodes with register
    index [idx]. *)
Fixpoint firstValue (idx : Z) (messages : list (list string))
  : option float64 :=
  match messages with
  | [] => None
  | hex :: rest =>
      match decode hex with
      | Some (i, v) =>
          if i =? idx then Some (float64_of_float32 v)
          else firstValue idx rest
      | None => firstValue idx rest
      end
  end.

(** The first of two optional values that is present. *)
Definition orElse {A : Type} (a b : option A) : option A :=
  match a with
  | Some x => Some x
  | None => b
  end.

(** The seen set of [listenMotorParams] agrees with the three slots. *)
Definition seenAgrees (s : paramState) : Prop :=
  (idxLocKp ∈ seenIdx s <-> is_Some (locKp s))
  /\ (idxSpdKp ∈ seenIdx s <-> is_Some (spdKp s))
  /\ (idxSpdKi ∈ seenIdx s <-> is_Some (spdKi s)).

(** The first-repeat rule on the raw patterns alone: [seenSoFar] holds the
    patterns read, oldest first; the first pattern met again ends the scan
    with the pattern read last. *)
Fixpoint settleRaw (seenSoFar : list Z) (raw : list Z) : option Z :=
  match raw with
  | [] => None
  | u :: rest =>
      if bool_decide (u ∈ seenSoFar) then last seenSoFar
      else settleRaw (seenSoFar ++ [u]) rest
  end.

(** The value a step settled on, if it did. *)
Definition stepValue (st : Step) : option float64 :=
  match st with
  | Settled _ v => Some v
  | Next _ => None
  end.

(** The sequences a response carries, ascending pair first. *)
Definition respSequences (resp : ControlResponse) : list JointSequence :=
  match RespData resp with
  | NoData => []
  | DataSequences sequences => sequences
  | DataUpDown up down _ _ => up ++ down
  end.

(** * Properties *)

(** ** Frame codec *)

Lemma u8_bits (x n : Z) :
  0 <= n -> Z.testbit (u8 x) n = (n <? 8) && Z.testbit x n.
Proof.
  intros Hn. unfold u8. destruct (Z.ltb_spec n 8).
  - rewrite Z.mod_pow2_bits_low by lia. reflexivity.
  - rewrite Z.mod_pow2_bits_high by lia. reflexivity.
Qed.

Lemma u16_bits (x n : Z) :
  0 <= n -> Z.testbit (u16 x) n = (n <? 16) && Z.testbit x n.
Proof.
  intros Hn. unfold u16. destruct (Z.ltb_spec n 16).
  - rewrite Z.mod_pow2_bits_low by lia. reflexivity.
  - rewrite Z.mod_pow2_bits_high by lia. reflexivity.
Qed.

Lemma u32_bits (x n : Z) :
  0 <= n -> Z.testbit (u32 x) n = (n <? 32) && Z.testbit x n.
Proof.
  intros Hn. unfold u32. destruct (Z.ltb_spec n 32).
  - rewrite Z.mod_pow2_bits_low by lia. reflexivity.
  - rewrite Z.mod_pow2_bits_high by lia. reflexivity.
Qed.

Lemma mask_bits (x n : Z) :
  0 <= n -> Z.testbit (Z.land x 0xFF) n = (n <? 8) && Z.testbit x n.
Proof.
  intros Hn. change 0xFF with (Z.ones 8). rewrite Z.land_spec.
  destruct (Z.ltb_spec n 8).
  - rewrite Z.ones_spec_low by lia. apply andb_comm.
  - rewrite Z.ones_spec_high by lia. apply andb_false_r.
Qed.

Lemma is_u8_u8 (x : Z) : is_u8 (u8 x).
Proof. unfold is_u8, u8. apply Z.mod_pos_bound. lia. Qed.

Lemma is_u8_mask (x : Z) : is_u8 (Z.land x 0xFF).
Proof.
  unfold is_u8. change 0xFF with (Z.ones 8). rewrite Z.land_ones by lia.
  apply Z.mod_pos_bound. lia.
Qed.

Lemma is_u32_high_bits (v n : Z) : is_u32 v -> 32 <= n -> Z.testbit v n = false.
Proof.
  intros Hv Hn. rewrite <- (Z.mod_small v (2 ^ 32)) by exact Hv.
  apply Z.mod_pow2_bits_high. lia.
Qed.

Lemma is_u16_high_bits (v n : Z) : is_u16 v -> 16 <= n -> Z.testbit v n = false.
Proof.
  intros Hv Hn. rewrite <- (Z.mod_small v (2 ^ 16)) by exact Hv.
  apply Z.mod_pow2_bits_high. lia.
Qed.

(** Every two-digit token the bridge renders parses back to its byte. *)
Lemma parseHexByte_hexToken_table :
  forallb (fun b => parseHexByte (hexToken b) =? b) (seqZ 0 256) = true.
Proof. vm_compute. reflexivity. Qed.

Lemma parseHexByte_hexToken (b : Z) : is_u8 b -> parseHexByte (hexToken b) = b.
Proof.
  intros Hb. pose proof parseHexByte_hexToken_table as H.
  rewrite forallb_forall in H. apply Z.eqb_eq, H.
  apply list_elem_of_In, elem_of_seqZ. unfold is_u8 in Hb. lia.
Qed.

Lemma hexAt_hexTokens (payload : list Z) (i : nat) (x : Z) :
  payload !! i = Some x -> is_u8 x -> hexAt (hexTokens payload) i = x.
Proof.
  intros Hi Hx. unfold hexAt, hexTokens.
  rewrite list_lookup_fmap, Hi. simpl. apply parseHexByte_hexToken, Hx.
Qed.

(** Four bytes put down little-endian and or-ed back give the word. *)
Lemma le_bytes_join (v : Z) :
  is_u32 v ->
  Z.lor (Z.lor (Z.lor (u8 v) (u32 (Z.shiftl (u8 (Z.shiftr v 8)) 8)))
               (u32 (Z.shiftl (u8 (Z.shiftr v 16)) 16)))
        (u32 (Z.shiftl (u8 (Z.shiftr v 24)) 24)) = v.
Proof.
  intros Hv. apply Z.bits_inj'. intros n Hn.
  rewrite !Z.lor_spec, !u32_bits, !Z.shiftl_spec, u8_bits by lia.
  destruct (Z.ltb_spec n 32) as [H32|H32]; simpl.
  2:{ rewrite (is_u32_high_bits v n Hv H32).
      destruct (Z.ltb_spec n 8); [lia | reflexivity]. }
  destruct (Z.ltb_spec n 8) as [H8|H8]; simpl.
  { rewrite !(Z.testbit_neg_r _ (n - _)) by lia.
    destruct (Z.testbit v n); reflexivity. }
  destruct (Z.ltb_spec n 16) as [H16|H16].
  { rewrite !(Z.testbit_neg_r _ (n - 16)), !(Z.testbit_neg_r _ (n - 24)) by lia.
    rewrite u8_bits, Z.shiftr_spec by lia.
    replace (n - 8 + 8) with n by lia.
    destruct (Z.ltb_spec (n - 8) 8); [|lia]. simpl.
    destruct (Z.testbit v n); reflexivity. }
  destruct (Z.ltb_spec n 24) as [H24|H24].
  { rewrite !(Z.testbit_neg_r _ (n - 24)) by lia.
    rewrite !u8_bits, !Z.shiftr_spec by lia.
    replace (n - 16 + 16) with n by lia.
    destruct (Z.ltb_spec (n - 8) 8); [lia|].
    destruct (Z.ltb_spec (n - 16) 8); [|lia]. simpl.
    destruct (Z.testbit v n); reflexivity. }
  rewrite !u8_bits, !Z.shiftr_spec by lia.
  replace (n - 24 + 24) with n by lia.
  destruct (Z.ltb_spec (n - 8) 8); [lia|].
  destruct (Z.ltb_spec (n - 16) 8); [lia|].
  destruct (Z.ltb_spec (n - 24) 8); [|lia]. simpl.
  destruct (Z.testbit v n); reflexivity.
Qed.

(** The index split into low and high byte and joined back. *)
Lemma index_bytes_join (idx : Z) :
  is_u16 idx ->
  Z.lor (Z.land idx 0xFF) (u16 (Z.shiftl (Z.land (Z.shiftr idx 8) 0xFF) 8))
  = idx.
Proof.
  intros Hi. apply Z.bits_inj'. intros n Hn.
  rewrite Z.lor_spec, u16_bits, Z.shiftl_spec, mask_bits by lia.
  destruct (Z.ltb_spec n 16) as [H16|H16]; simpl.
  2:{ rewrite (is_u16_high_bits idx n Hi H16).
      destruct (Z.ltb_spec n 8); [lia | reflexivity]. }
  destruct (Z.ltb_spec n 8) as [H8|H8]; simpl.
  { rewrite (Z.testbit_neg_r _ (n - 8)) by lia. apply orb_false_r. }
  rewrite mask_bits, Z.shiftr_spec by lia.
  replace (n - 8 + 8) with n by lia.
  destruct (Z.ltb_spec (n - 8) 8); [|lia]. reflexivity.
Qed.

(** Decoding the tokens of an eight-byte payload reads bytes 0, 1 and
    4 to 7 back. *)
Lemma decode_hexTokens (b0 b1 b2 b3 b4 b5 b6 b7 : Z) :
  is_u8 b0 -> is_u8 b1 -> is_u8 b4 -> is_u8 b5 -> is_u8 b6 -> is_u8 b7 ->
  decode (hexTokens [b0; b1; b2; b3; b4; b5; b6; b7])
  = Some (Z.lor b0 (u16 (Z.shiftl b1 8)),
          Float32frombits
            (Z.lor (Z.lor (Z.lor b4 (u32 (Z.shiftl b5 8)))
                          (u32 (Z.shiftl b6 16)))
                   (u32 (Z.shiftl b7 24)))).
Proof.
  intros H0 H1 H4 H5 H6 H7. unfold decode, hexAt, hexTokens.
  cbn -[parseHexByte hexToken Z.lor Z.shiftl u16 u32].
  rewrite !parseHexByte_hexToken by assumption. reflexivity.
Qed.

Lemma decode_encode (idx : Z) (value : float32) :
  is_u16 idx -> is_u32 (Float32bits value) ->
  decode (hexTokens (encode idx value)) = Some (idx, value).
Proof.
  intros Hidx Hbits. destruct value as [bits]. simpl in Hbits.
  unfold encode, valueData, PutUint32. cbn [Float32bits app].
  rewrite decode_hexTokens by first [apply is_u8_mask | apply is_u8_u8].
  rewrite index_bytes_join by exact Hidx.
  rewrite le_bytes_join by exact Hbits. reflexivity.
Qed.

(** The six setters lay their payload out as [encode] does, each at its own
    register index. *)
Lemma setter_payloads (b : BlackArmController) (motorID : Z) (v : float32) :
  Data (angleCommand b motorID v) = encode idxLocRef v
  /\ Data (speedCommand b motorID v) = encode 0x7024 v
  /\ Data (locKpCommand b motorID v) = encode idxLocKp v
  /\ Data (speedKpCommand b motorID v) = encode idxSpdKp v
  /\ Data (speedKiCommand b motorID v) = encode idxSpdKi v
  /\ Data (speedFiltGainCommand b motorID v) = encode 0x7021 v.
Proof. repeat split. Qed.

(** C1. Laying out a 16-bit register index and the 32 bits of a value as
    the write path does (index little-endian in bytes 0-1, bits
    little-endian in bytes 4-7) and decoding the tokens of that payload as
    the read path does gives back the same index and the same bit pattern,
    whatever the pattern is (a NaN or a subnormal included). *)
Theorem decode_encode_roundtrip (idx bits : Z) :
  is_u16 idx -> is_u32 bits ->
  decode (hexTokens (encode idx (Float32frombits bits)))
  = Some (idx, Float32frombits bits).
Proof. intros Hidx Hbits. apply decode_encode; assumption. Qed.

(** The round trip at the target-angle index and a signalling NaN. *)
Lemma decode_encode_roundtrip_witness :
  is_u16 idxLocRef /\ is_u32 0x7FA00001 /\
  decode (hexTokens (encode idxLocRef (Float32frombits 0x7FA00001)))
  = Some (idxLocRef, Float32frombits 0x7FA00001).
Proof.
  assert (H1 : is_u16 idxLocRef) by (unfold is_u16, idxLocRef; lia).
  assert (H2 : is_u32 0x7FA00001) by (unfold is_u32; lia).
  split; [exact H1 | split; [exact H2 |]].
  exact (decode_encode_roundtrip idxLocRef 0x7FA00001 H1 H2).
Defined.

Example decode_encode_subnormal :
  decode (hexTokens (encode idxSpdKi (Float32frombits 1)))
  = Some (idxSpdKi, Float32frombits 1).
Proof. vm_compute. reflexivity. Qed.

Example decode_short_frame : decode ["16"; "70"; "00"; "00"; "CD"]%string = None.
Proof. reflexivity. Qed.

(** *** Identifiers *)

Lemma lowByte_mod (x : Z) : lowByte x = x mod 2 ^ 8.
Proof. unfold lowByte. change 0xFF with (Z.ones 8). apply Z.land_ones. lia. Qed.

Lemma lowByte_read_id (x y : Z) :
  is_u8 y ->
  lowByte (Z.lor (Z.lor (u32 (Z.shiftl typeReadSingle 24)) (u32 (Z.shiftl x 8))) y)
  = y.
Proof.
  intros Hy. unfold lowByte. apply Z.bits_inj'. intros n Hn.
  rewrite mask_bits, !Z.lor_spec, !u32_bits, !Z.shiftl_spec by lia.
  destruct (Z.ltb_spec n 8) as [H8|H8]; simpl.
  - rewrite !Z.testbit_neg_r with (n := n - 24) by lia.
    rewrite !Z.testbit_neg_r with (n := n - 8) by lia.
    rewrite !andb_false_r. reflexivity.
  - symmetry. rewrite <- (Z.mod_small y (2 ^ 8)) by exact Hy.
    apply Z.mod_pow2_bits_high. lia.
Qed.

Lemma lowByte_writeID (base motorID : Z) :
  0 <= base -> base mod 2 ^ 8 = 0 -> base + 2 ^ 8 <= 2 ^ 32 ->
  is_u8 motorID -> lowByte (writeID base motorID) = motorID.
Proof.
  unfold is_u8. intros Hb Hlow Hfit Hm. rewrite lowByte_mod.
  unfold writeID, u32. rewrite (Z.mod_small motorID) by lia.
  rewrite (Z.mod_small (base + motorID)) by lia.
  rewrite Z.add_mod, Hlow, Z.add_0_l, Z.mod_mod by lia.
  apply Z.mod_small. lia.
Qed.

Lemma commandByte_writeID (cmd motorID : Z) :
  0 <= cmd < 2 ^ 8 -> is_u8 motorID ->
  commandByte (writeID (cmd * 2 ^ 24 + 0xFD00) motorID) = cmd.
Proof.
  unfold is_u8, commandByte, writeID, u32. intros Hc Hm.
  rewrite (Z.mod_small motorID) by lia.
  rewrite Z.mod_small by lia.
  change 0xFF with (Z.ones 8). rewrite Z.land_ones, Z.shiftr_div_pow2 by lia.
  replace (cmd * 2 ^ 24 + 0xFD00 + motorID)
    with (0xFD00 + motorID + cmd * 2 ^ 24) by lia.
  rewrite Z.div_add by lia. rewrite (Z.div_small (0xFD00 + motorID)) by lia.
  apply Z.mod_small. lia.
Qed.

(** C10. For 8-bit host and motor ids that differ, the identifier of a read
    request differs from the identifier of its response; and the low byte
    of the identifier of every frame the write path builds for an 8-bit
    motor id is that motor id. *)
Theorem identifier_asymmetry (h m : Z) (b : BlackArmController)
    (frame : CANMessage) :
  is_u8 h -> is_u8 m ->
  (h <> m -> buildReadReqID h m <> buildReadRespID h m)
  /\ (isWriteFrame b m frame -> lowByte (ID frame) = m).
Proof.
  intros Hh Hm. split.
  - intros Hne Heq. apply Hne.
    apply (f_equal lowByte) in Heq. unfold buildReadReqID, buildReadRespID in Heq.
    rewrite !lowByte_read_id in Heq by assumption. congruence.
  - intros Hf. destruct Hf; cbn [ID setModeCommand enableCommand disableCommand
      setZeroCommand cleanErrorCommand angleCommand speedCommand locKpCommand
      speedKpCommand speedKiCommand speedFiltGainCommand valueCommand];
      apply lowByte_writeID; try assumption; try lia; reflexivity.
Qed.

Lemma identifier_asymmetry_witness :
  is_u8 defaultHostID /\ is_u8 61 /\
  buildReadReqID defaultHostID 61 <> buildReadRespID defaultHostID 61 /\
  lowByte (ID (angleCommand leftArm 61 f32_0_1)) = 61.
Proof.
  assert (H1 : is_u8 defaultHostID) by (unfold is_u8, defaultHostID; lia).
  assert (H2 : is_u8 61) by (unfold is_u8; lia).
  pose proof (identifier_asymmetry defaultHostID 61
                leftArm
                (angleCommand leftArm 61 f32_0_1)
                H1 H2) as [Ha Hb].
  split; [exact H1 | split; [exact H2 | split]].
  - apply Ha. unfold defaultHostID. lia.
  - apply Hb. constructor.
Defined.

(** The motor ids of an arm built by [NewBlackArmController] are 8-bit. *)
Lemma controller_ids_are_bytes (baseURL interface_ deviceName : string) (m : Z) :
  m ∈ MotorIDs (NewBlackArmController baseURL interface_ deviceName) -> is_u8 m.
Proof.
  unfold NewBlackArmController, is_u8.
  destruct (Contains deviceName "left"); [|destruct (Contains deviceName "right")];
    cbn [MotorIDs]; rewrite !elem_of_cons, elem_of_nil; lia.
Qed.

(** With equal ids the two identifiers coincide. *)
Lemma read_ids_coincide (h : Z) : buildReadReqID h h = buildReadRespID h h.
Proof. reflexivity. Qed.

(** ** Command dispatcher *)

(** C5, as stated, fails: the set-zero frame of motor 61 does not carry
    eight zero bytes, and the disable and clear-fault frames of a motor have
    the same identifier, hence the same command byte. *)
Lemma valueless_data_not_all_zero :
  Data (valuelessFrame leftArm OpSetZero 61) <> [0; 0; 0; 0; 0; 0; 0; 0]
  /\ Data (valuelessFrame leftArm OpClearFault 61) <> [0; 0; 0; 0; 0; 0; 0; 0]
  /\ ID (valuelessFrame leftArm OpDisable 61)
     = ID (valuelessFrame leftArm OpClearFault 61).
Proof. repeat split; discriminate. Qed.

(** C5, amended. For an 8-bit motor id, the drive-enable and the disable
    frame carry eight zero bytes; the set-zero and the clear-fault frame
    carry 0x01 in byte 0 and zero in the seven others. The command byte is
    0x03 for enable, 0x06 for set-zero and 0x04 for both disable and
    clear-fault, which have the same identifier and differ in data byte 0
    only. *)
Theorem valueless_frames (b : BlackArmController) (m : Z) :
  is_u8 m ->
  Data (valuelessFrame b OpEnable m) = [0; 0; 0; 0; 0; 0; 0; 0]
  /\ Data (valuelessFrame b OpDisable m) = [0; 0; 0; 0; 0; 0; 0; 0]
  /\ Data (valuelessFrame b OpSetZero m) = [1; 0; 0; 0; 0; 0; 0; 0]
  /\ Data (valuelessFrame b OpClearFault m) = [1; 0; 0; 0; 0; 0; 0; 0]
  /\ commandByte (ID (valuelessFrame b OpEnable m)) = 0x03
  /\ commandByte (ID (valuelessFrame b OpDisable m)) = 0x04
  /\ commandByte (ID (valuelessFrame b OpSetZero m)) = 0x06
  /\ commandByte (ID (valuelessFrame b OpClearFault m)) = 0x04
  /\ ID (valuelessFrame b OpDisable m) = ID (valuelessFrame b OpClearFault m).
Proof.
  intros Hm. repeat split;
    cbn [valuelessFrame ID enableCommand disableCommand setZeroCommand
         cleanErrorCommand].
  - apply (commandByte_writeID 0x03); [lia | exact Hm].
  - apply (commandByte_writeID 0x04); [lia | exact Hm].
  - apply (commandByte_writeID 0x06); [lia | exact Hm].
  - apply (commandByte_writeID 0x04); [lia | exact Hm].
Qed.

Lemma valueless_frames_witness :
  is_u8 61 /\
  commandByte
    (ID (valuelessFrame leftArm OpSetZero 61))
  = 0x06.
Proof.
  assert (H : is_u8 61) by (unfold is_u8; lia).
  split; [exact H |].
  exact (proj1 (proj2 (proj2 (proj2 (proj2 (proj2 (proj2
           (valueless_frames leftArm 61 H)))))))).
Defined.

(** The frames [enableSingleMotor] hands over, in order: the mode frame
    with its value byte, then the drive-enable frame. *)
Lemma enableSingleMotor_frames (tx : Transport) (b : BlackArmController)
    (m : Z) (log : list CANMessage) :
  tx log (setModeCommand b m) = PostStatus 200 ->
  snd (enableSingleMotor tx b m log)
  = log ++ [setModeCommand b m; enableCommand b m].
Proof.
  intros H. unfold enableSingleMotor, bind, sendCommand. rewrite H. simpl.
  rewrite <- app_assoc. reflexivity.
Qed.

(** C4. When the number of supplied angles differs from the number of
    motors of the arm, [SetAngles] returns the count-mismatch error and the
    log of frames handed to the transport is unchanged, whatever the
    transport and the schedule are: the length check comes before any
    goroutine is started. *)
Theorem SetAngles_arity_guard (tx : Transport) (b : BlackArmController)
    (angles : list float32) (posts deliveries : list nat)
    (log : list CANMessage) :
  length angles <> length (MotorIDs b) ->
  SetAngles tx b angles posts deliveries log
  = (Some (ErrCountMismatch (length angles) (length (MotorIDs b))), log).
Proof.
  intros Hne. unfold SetAngles. rewrite bool_decide_eq_true_2 by exact Hne.
  reflexivity.
Qed.

Lemma SetAngles_arity_guard_witness :
  length [f32_0_1; f32_zero] <> length (MotorIDs leftArm)
  /\ SetAngles okTransport leftArm [f32_0_1; f32_zero] [0; 1]%nat [0; 1]%nat []
     = (Some (ErrCountMismatch 2 7), []).
Proof.
  assert (H : length [f32_0_1; f32_zero] <> length (MotorIDs leftArm))
    by (simpl; lia).
  split; [exact H |].
  exact (SetAngles_arity_guard okTransport leftArm
           [f32_0_1; f32_zero] [0; 1]%nat [0; 1]%nat [] H).
Defined.

(** With as many angles as motors, every goroutine posts its frame: here
    seven frames, in the order of the schedule. *)
Example SetAngles_matching_count :
  let '(err, log) :=
    SetAngles okTransport leftArm (replicate 7 f32_zero) [6; 5; 4; 3; 2; 1; 0]%nat
      [0; 1; 2; 3; 4; 5; 6]%nat [] in
  err = None /\ map ID log
  = map (fun m => 0x1200FD00 + m) [67; 66; 65; 64; 63; 62; 61].
Proof. vm_compute. split; reflexivity. Qed.

(** A failed post of one joint surfaces as the call's error while the
    frames of the other joints are handed over all the same. *)
Example SetAngles_one_failure :
  let b := rightArm in
  let tx : Transport :=
    fun _ c => if ID c =? 0x1200FD00 + 53 then PostFailed else PostStatus 200 in
  let '(err, log) :=
    SetAngles tx b (replicate 7 f32_zero) [0; 1; 2; 3; 4; 5; 6]%nat
      [0; 1; 2; 3; 4; 5; 6]%nat [] in
  err = Some (ErrWrapped (CtxSetAngle 53) ErrHTTPRequest) /\ length log = 7%nat.
Proof. vm_compute. split; reflexivity. Qed.

(** ** Feedback acquisition *)

Lemma rawPattern_locRefMessage (u : Z) :
  is_u32 u -> rawPattern (locRefMessage u) = Some u.
Proof.
  intros Hu. unfold rawPattern, locRefMessage.
  rewrite decode_encode; [reflexivity | unfold is_u16, idxLocRef; lia | exact Hu].
Qed.

(** The three ways a message acts on the state. *)
Lemma observe_other (s : streamState) (hex : list string) :
  rawPattern hex = None -> observe s hex = Next s.
Proof.
  unfold rawPattern, observe. destruct (decode hex) as [[idx v]|]; [|reflexivity].
  destruct (idx =? idxLocRef); [discriminate | reflexivity].
Qed.

Lemma observe_new (s : streamState) (hex : list string) (u : Z) :
  rawPattern hex = Some u -> u ∉ seen s ->
  observe s hex
  = Next (mkStreamState ({[u]} ∪ seen s) u (Float32frombits u) true
            (repeats s) (captured s)).
Proof.
  unfold rawPattern, observe. destruct (decode hex) as [[idx [bits]]|]; [|discriminate].
  destruct (idx =? idxLocRef); [|discriminate].
  cbn [Float32bits]. intros [= ->] Hnew.
  rewrite bool_decide_eq_false_2 by exact Hnew. reflexivity.
Qed.

Lemma observe_repeat (s : streamState) (hex : list string) (u : Z) :
  rawPattern hex = Some u -> u ∈ seen s ->
  captured s = false -> havePrev s = true ->
  observe s hex = Settled AtFirstRepeat (float64_of_float32 (prevVal s)).
Proof.
  unfold rawPattern, observe. destruct (decode hex) as [[idx [bits]]|]; [|discriminate].
  destruct (idx =? idxLocRef); [|discriminate].
  cbn [Float32bits]. intros [= ->] Hin Hc Hp.
  rewrite bool_decide_eq_true_2 by exact Hin.
  cbn [captured havePrev prevVal]. rewrite Hc, Hp. reflexivity.
Qed.

Lemma Tracks_initial : Tracks [] initialState.
Proof. repeat split. constructor. Qed.

Lemma Tracks_havePrev (pre : list Z) (s : streamState) (u : Z) :
  Tracks pre s -> u ∈ seen s -> havePrev s = true.
Proof.
  intros (_ & Hseen & _ & _ & Hlast) Hin. rewrite Hseen in Hin.
  destruct pre as [|x pre'] using rev_ind.
  { simpl in Hin. exfalso. exact (not_elem_of_empty (C := gset Z) u Hin). }
  rewrite last_snoc in Hlast. tauto.
Qed.

(** One message from a tracked state: either the loop settles, at the
    first-repeat site, on the value held, the message being a pattern seen
    before; or it goes on in a state that tracks the patterns read. *)
Lemma observe_tracked (pre : list Z) (s : streamState) (hex : list string) :
  Tracks pre s ->
  match observe s hex with
  | Settled site v =>
      site = AtFirstRepeat
      /\ exists u w, rawPattern hex = Some u /\ u ∈ pre /\ last pre = Some w
                     /\ v = float64_of_float32 (Float32frombits w)
  | Next s' => Tracks (pre ++ option_list (rawPattern hex)) s'
  end.
Proof.
  intros HT. destruct (rawPattern hex) as [u|] eqn:Hraw.
  2:{ rewrite observe_other by exact Hraw. simpl. rewrite app_nil_r. exact HT. }
  destruct (decide (u ∈ seen s)) as [Hin|Hnew].
  - pose proof (Tracks_havePrev _ _ _ HT Hin) as Hp.
    destruct HT as (Hnd & Hseen & Hc & Hr & Hlast).
    rewrite (observe_repeat s hex u Hraw Hin Hc Hp). split; [reflexivity|].
    rewrite Hseen in Hin. apply elem_of_list_to_set in Hin.
    destruct (last pre) as [w|]; [|congruence].
    destruct Hlast as (_ & _ & Hv). exists u, w. rewrite Hv. auto.
  - rewrite (observe_new s hex u Hraw Hnew).
    destruct HT as (Hnd & Hseen & Hc & Hr & Hlast).
    assert (Hu : u ∉ pre).
    { intros Hu. apply Hnew. rewrite Hseen. apply elem_of_list_to_set, Hu. }
    simpl. repeat split; cbn [seen captured repeats havePrev prevBits prevVal].
    + apply NoDup_app. repeat split; [exact Hnd | | apply NoDup_singleton].
      intros x Hx Hx'. apply list_elem_of_singleton in Hx'. congruence.
    + rewrite Hseen, list_to_set_app_L. simpl.
      rewrite (right_id_L ∅ (∪)). apply (comm_L (∪)).
    + exact Hc.
    + exact Hr.
    + rewrite last_snoc. auto.
Qed.

Lemma observeAll_tracked (messages : list (list string)) :
  forall (pre : list Z) (s : streamState),
  Tracks pre s ->
  match fst (observeAll s messages) with
  | Settled site v =>
      site = AtFirstRepeat
      /\ exists p u q w,
           rawStream messages = p ++ u :: q /\ NoDup (pre ++ p)
           /\ u ∈ pre ++ p /\ last (pre ++ p) = Some w
           /\ v = float64_of_float32 (Float32frombits w)
  | Next s' => Tracks (pre ++ rawStream messages) s'
  end.
Proof.
  induction messages as [|hex rest IH]; intros pre s HT.
  - simpl. rewrite app_nil_r. exact HT.
  - pose proof (observe_tracked pre s hex HT) as Hstep.
    cbn [observeAll]. destruct (observe s hex) as [s'|site v].
    + specialize (IH _ _ Hstep).
      assert (Hraw : rawStream (hex :: rest)
                     = option_list (rawPattern hex) ++ rawStream rest).
      { unfold rawStream. simpl. destruct (rawPattern hex); reflexivity. }
      destruct (fst (observeAll s' rest)) as [s''|site v].
      * rewrite Hraw, app_assoc. exact IH.
      * destruct IH as (Hsite & p & u & q & w & Hs & Hnd & Hu & Hl & Hv).
        split; [exact Hsite|].
        exists (option_list (rawPattern hex) ++ p), u, q, w.
        rewrite Hraw, Hs, !app_assoc. auto.
    + simpl. destruct Hstep as (Hsite & u & w & Hraw & Hu & Hl & Hv).
      split; [exact Hsite|].
      exists [], u, (rawStream rest), w. rewrite app_nil_r.
      destruct HT as (Hnd & _). unfold rawStream. simpl. rewrite Hraw.
      auto.
Qed.

Lemma observeAll_app (a c : list (list string)) (s : streamState) :
  observeAll s (a ++ c)
  = match observeAll s a with
    | (Next s', _) => observeAll s' c
    | (Settled site v, unread) => (Settled site v, unread ++ c)
    end.
Proof.
  revert s. induction a as [|hex a IH]; intros s; simpl.
  - reflexivity.
  - destruct (observe s hex); [apply IH | reflexivity].
Qed.

(** The polling loop reads the messages of the polls as one stream. *)
Lemma listenLoop_pending (polls : list Poll) (s : streamState) :
  listenLoop s polls
  = match observeAll s (pending polls) with
    | (Settled site v, unread) => (Some (site, v), unread)
    | (Next _, _) => (None, [])
    end.
Proof.
  revert s. induction polls as [|p polls IH]; intros s.
  - reflexivity.
  - destruct p as [| |messages]; cbn [listenLoop pending]; [apply IH ..|].
    rewrite observeAll_app. destruct messages as [|hex messages].
    + simpl. apply IH.
    + destruct (observeAll s (hex :: messages)) as [[s'|site v] unread].
      * apply IH.
      * reflexivity.
Qed.

(** Every state the loop can be in tracks some list of patterns. *)
Lemma Reachable_tracked (s : streamState) :
  Reachable s -> exists pre, Tracks pre s.
Proof.
  induction 1 as [|s hex s' _ [pre HT] Hstep].
  - exists []. exact Tracks_initial.
  - pose proof (observe_tracked pre s hex HT) as H. rewrite Hstep in H.
    eexists. exact H.
Qed.

(** C2. When the target-angle messages that arrive carry the raw values
    A, A, B, B in this order, however they are split over polls, the round
    settles on A at the second A, at the first-repeat site, and the two B
    messages are left unread. *)
Theorem settles_on_first_repeat (A B : Z) (polls : list Poll) :
  is_u32 A -> is_u32 B -> A <> B ->
  pending polls
  = [locRefMessage A; locRefMessage A; locRefMessage B; locRefMessage B] ->
  listenLoop initialState polls
  = (Some (AtFirstRepeat, float64_of_float32 (Float32frombits A)),
     [locRefMessage B; locRefMessage B])
  /\ listenOneMotorRound polls
     = (true, float64_of_float32 (Float32frombits A)).
Proof.
  intros HA HB _ Hp.
  assert (H : listenLoop initialState polls
              = (Some (AtFirstRepeat, float64_of_float32 (Float32frombits A)),
                 [locRefMessage B; locRefMessage B])).
  { rewrite listenLoop_pending, Hp. cbn [observeAll].
    rewrite (observe_new initialState _ A (rawPattern_locRefMessage A HA))
      by (simpl; apply not_elem_of_empty).
    erewrite observe_repeat;
      [reflexivity | apply rawPattern_locRefMessage, HA | | reflexivity ..].
    simpl. apply elem_of_union_l, elem_of_singleton. reflexivity. }
  split; [exact H|]. unfold listenOneMotorRound. rewrite H. reflexivity.
Qed.

Lemma settles_on_first_repeat_witness :
  is_u32 0x3DCCCCCD /\ is_u32 0x3F800000 /\ 0x3DCCCCCD <> 0x3F800000 /\
  listenOneMotorRound
    [PollFailed;
     PollMessages [locRefMessage 0x3DCCCCCD];
     PollMessages [locRefMessage 0x3DCCCCCD; locRefMessage 0x3F800000];
     PollUnparsable;
     PollMessages [locRefMessage 0x3F800000]]
  = (true, float64_of_float32 (Float32frombits 0x3DCCCCCD)).
Proof.
  assert (HA : is_u32 0x3DCCCCCD) by (unfold is_u32; lia).
  assert (HB : is_u32 0x3F800000) by (unfold is_u32; lia).
  assert (Hne : 0x3DCCCCCD <> 0x3F800000) by lia.
  split; [exact HA | split; [exact HB | split; [exact Hne |]]].
  exact (proj2 (settles_on_first_repeat 0x3DCCCCCD 0x3F800000
                  [PollFailed;
                   PollMessages [locRefMessage 0x3DCCCCCD];
                   PollMessages [locRefMessage 0x3DCCCCCD;
                                 locRefMessage 0x3F800000];
                   PollUnparsable;
                   PollMessages [locRefMessage 0x3F800000]]
                  HA HB Hne eq_refl)).
Defined.

(** C7. In every state the message loop can be in, [captured] is false and
    the repeat counter is 0, and once a pattern has been seen a previous
    value is held; so no message makes the loop return at the site guarded
    by [repeats >= 2]. For every list of polls the round settles exactly
    when the stream of target-angle patterns has a repeat: at the first
    pattern [u] that occurred before it, and on the pattern read last before
    [u], the most recently recorded one. Without a repeat the round does not
    settle. *)
Theorem first_repeat_only :
  (forall s, Reachable s ->
     captured s = false /\ repeats s = 0
     /\ (seen s <> ∅ -> havePrev s = true))
  /\ (forall s hex v, Reachable s -> observe s hex <> Settled AtSecondRepeat v)
  /\ (forall polls,
        match fst (listenLoop initialState polls) with
        | Some (site, v) =>
            site = AtFirstRepeat
            /\ exists p u q w,
                 rawStream (pending polls) = p ++ u :: q
                 /\ NoDup p /\ u ∈ p /\ last p = Some w
                 /\ v = float64_of_float32 (Float32frombits w)
        | None => NoDup (rawStream (pending polls))
        end).
Proof.
  split; [|split].
  - intros s Hs. destruct (Reachable_tracked s Hs) as [pre HT].
    pose proof HT as (_ & Hseen & Hc & Hr & _).
    split; [exact Hc | split; [exact Hr |]]. intros Hne.
    destruct (set_choose_L (seen s) Hne) as [u Hu].
    exact (Tracks_havePrev pre s u HT Hu).
  - intros s hex v Hs Heq. destruct (Reachable_tracked s Hs) as [pre HT].
    pose proof (observe_tracked pre s hex HT) as H. rewrite Heq in H.
    destruct H as [H _]. discriminate.
  - intros polls. rewrite listenLoop_pending.
    pose proof (observeAll_tracked (pending polls) [] initialState Tracks_initial) as H.
    destruct (observeAll initialState (pending polls)) as [[s'|site v] unread];
      cbn [fst] in *.
    + destruct H as [H _]. exact H.
    + exact H.
Qed.

Lemma first_repeat_only_witness :
  match fst (listenLoop initialState
               [PollMessages [locRefMessage 1; locRefMessage 2];
                PollMessages [locRefMessage 1; locRefMessage 3]]) with
  | Some (site, v) =>
      site = AtFirstRepeat
      /\ exists p u q w,
           rawStream (pending [PollMessages [locRefMessage 1; locRefMessage 2];
                               PollMessages [locRefMessage 1; locRefMessage 3]])
           = p ++ u :: q
           /\ NoDup p /\ u ∈ p /\ last p = Some w
           /\ v = float64_of_float32 (Float32frombits w)
  | None =>
      NoDup (rawStream (pending [PollMessages [locRefMessage 1; locRefMessage 2];
                                 PollMessages [locRefMessage 1; locRefMessage 3]]))
  end.
Proof.
  exact (proj2 (proj2 first_repeat_only)
           [PollMessages [locRefMessage 1; locRefMessage 2];
            PollMessages [locRefMessage 1; locRefMessage 3]]).
Defined.

(** The stream A, B, A settles on B: the value returned is the one recorded
    last, not the one that repeated. *)
Example first_repeat_returns_last_recorded :
  listenOneMotorRound
    [PollMessages [locRefMessage 1; locRefMessage 2; locRefMessage 1]]
  = (true, float64_of_float32 (Float32frombits 2)).
Proof. vm_compute. reflexivity. Qed.

(** Messages of other registers and short messages do not count. *)
Example other_registers_ignored :
  listenOneMotorRound
    [PollMessages [hexTokens (encode idxLocKp (Float32frombits 7));
                   hexTokens (encode idxLocKp (Float32frombits 7));
                   ["16"; "70"]%string;
                   locRefMessage 5]]
  = (false, float64_of_float32 f32_zero).
Proof. vm_compute. reflexivity. Qed.

(** *** Partial results *)

(** A round adds an entry exactly when it settles. *)
Lemma settledRounds_elem (roundPolls : nat -> list Poll) (motorIDs : list Z) :
  forall (i : nat) (m : Z) (v : float64),
  (m, v) ∈ settledRounds roundPolls i motorIDs
  <-> exists k, motorIDs !! k = Some m
                /\ listenOneMotorRound (roundPolls (i + k)%nat) = (true, v).
Proof.
  induction motorIDs as [|m0 rest IH]; intros i m v.
  - simpl. split.
    + intros H. inversion H.
    + intros (k & Hk & _). discriminate.
  - cbn [settledRounds].
    destruct (listenOneMotorRound (roundPolls i)) as [ok angle] eqn:Hround.
    rewrite elem_of_app, IH. split.
    + intros [H | (k & Hk & Hv)].
      * destruct ok; [|inversion H]. apply list_elem_of_singleton in H.
        injection H as -> ->. exists 0%nat. rewrite Nat.add_0_r. auto.
      * exists (S k). replace (i + S k)%nat with (S i + k)%nat by lia. auto.
    + intros ([|k] & Hk & Hv).
      * left. rewrite Nat.add_0_r, Hround in Hv. injection Hv as -> ->.
        simpl in Hk. injection Hk as ->. apply list_elem_of_singleton. reflexivity.
      * right. exists k. replace (S i + k)%nat with (i + S k)%nat by lia. auto.
Qed.

Lemma settledRounds_motors (roundPolls : nat -> list Poll) (motorIDs : list Z) :
  forall i, (settledRounds roundPolls i motorIDs).*1 `sublist_of` motorIDs.
Proof.
  induction motorIDs as [|m0 rest IH]; intros i; cbn [settledRounds].
  - constructor.
  - destruct (listenOneMotorRound (roundPolls i)) as [[|] angle]; simpl.
    + apply sublist_skip, IH.
    + apply sublist_cons, IH.
Qed.

(** The map built by the last loop of [QueryCurrentAngles] holds the
    settled rounds, a later round of a motor overriding an earlier one. *)
Lemma collectAngles_settled (roundPolls : nat -> list Poll) (motorIDs : list Z) :
  forall (i : nat) (angles : gmap Z float64),
  collectAngles roundPolls i motorIDs angles
  = foldl (fun acc p => <[p.1 := p.2]> acc) angles
      (settledRounds roundPolls i motorIDs).
Proof.
  induction motorIDs as [|m0 rest IH]; intros i angles; cbn [collectAngles settledRounds].
  - reflexivity.
  - destruct (listenOneMotorRound (roundPolls i)) as [[|] angle];
      rewrite IH; reflexivity.
Qed.

Lemma dom_foldl_insert (l : list (Z * float64)) :
  forall acc : gmap Z float64,
  dom (foldl (fun acc p => <[p.1 := p.2]> acc) acc l)
  = list_to_set l.*1 ∪ dom acc.
Proof.
  induction l as [|[m v] l IH]; intros acc; simpl.
  - rewrite (left_id_L ∅ (∪)). reflexivity.
  - rewrite IH, dom_insert_L.
    rewrite (assoc_L (∪)), (comm_L (∪) (list_to_set l.*1)). reflexivity.
Qed.

Lemma lookup_foldl_insert_NoDup (l : list (Z * float64)) :
  forall (acc : gmap Z float64) (m : Z) (v : float64),
  NoDup l.*1 -> (m, v) ∈ l ->
  foldl (fun acc p => <[p.1 := p.2]> acc) acc l !! m = Some v.
Proof.
  induction l as [|[m0 v0] l IH]; intros acc m v Hnd Hin.
  - inversion Hin.
  - simpl in Hnd. apply NoDup_cons in Hnd as [Hm0 Hnd].
    apply elem_of_cons in Hin as [Heq | Hin]; simpl.
    + injection Heq as -> ->.
      assert (Hkeep : forall (l' : list (Z * float64)) (acc' : gmap Z float64),
                 m0 ∉ l'.*1 ->
                 foldl (fun acc p => <[p.1 := p.2]> acc) acc' l' !! m0
                 = acc' !! m0).
      { induction l' as [|[m1 v1] l' IHl']; intros acc' Hnot; simpl.
        - reflexivity.
        - simpl in Hnot. apply not_elem_of_cons in Hnot as [Hne Hnot].
          rewrite IHl' by exact Hnot. apply lookup_insert_ne. congruence. }
      rewrite Hkeep by exact Hm0. apply lookup_insert_eq.
    + apply IH; assumption.
Qed.

Lemma sendReadForMotor_ok (tx : Transport) (iface : string) (m : Z)
    (indices : list Z) :
  (forall l c, tx l c <> PostFailed) ->
  forall log, fst (sendReadForMotor tx iface m indices log) = None.
Proof.
  intros Htx. unfold sendReadForMotor.
  induction indices as [|idx rest IH]; intros log; simpl.
  - reflexivity.
  - unfold bind. destruct (tx log (readRequest iface m idx)) eqn:Hpost.
    + exfalso. exact (Htx _ _ Hpost).
    + apply IH.
Qed.

Lemma read_requests_ok (tx : Transport) (iface : string) (indices : list Z)
    (motorIDs : list Z) :
  (forall l c, tx l c <> PostFailed) ->
  forall log,
  fst (forEach (fun m => sendReadForMotor tx iface m indices) motorIDs log)
  = None.
Proof.
  intros Htx. induction motorIDs as [|m rest IH]; intros log; simpl.
  - reflexivity.
  - unfold bind.
    pose proof (sendReadForMotor_ok tx iface m indices Htx log) as H.
    destruct (sendReadForMotor tx iface m indices log) as [r log'].
    simpl in H. subst r. apply IH.
Qed.

(** C8. When the read requests were handed to the bridge, the query
    reports no error whichever rounds settle, and its angle map has an entry
    for a motor exactly when a round of that motor settled; with distinct
    motor ids the map has as many entries as rounds settled, each motor
    being mapped to the value its round settled on. *)
Theorem partial_feedback_succeeds (tx : Transport) (iface : string)
    (motorIDs : list Z) (paramPolls : list Poll)
    (roundPolls : nat -> list Poll) (log : list CANMessage) :
  (forall l c, tx l c <> PostFailed) ->
  exists angles params log',
    QueryCurrentAngles tx iface motorIDs paramPolls roundPolls log
    = ((angles, params, None), log')
    /\ (forall m, is_Some (angles !! m)
                  <-> exists k, motorIDs !! k = Some m
                        /\ fst (listenOneMotorRound (roundPolls k)) = true)
    /\ (NoDup motorIDs ->
        size angles = length (settledRounds roundPolls 0 motorIDs)
        /\ forall m v,
             angles !! m = Some v
             <-> exists k, motorIDs !! k = Some m
                   /\ listenOneMotorRound (roundPolls k) = (true, v)).
Proof.
  intros Htx. unfold QueryCurrentAngles, bind.
  pose proof (read_requests_ok tx iface
                [idxLocRef; idxLocKp; idxSpdKp; idxSpdKi] motorIDs Htx log) as Hsend.
  destruct (forEach _ motorIDs log) as [r log']. simpl in Hsend. subst r.
  eexists _, _, _. split; [reflexivity|].
  rewrite collectAngles_settled.
  set (settled := settledRounds roundPolls 0 motorIDs).
  assert (Helem : forall m v, (m, v) ∈ settled
            <-> exists k, motorIDs !! k = Some m
                  /\ listenOneMotorRound (roundPolls k) = (true, v)).
  { intros m v. apply (settledRounds_elem roundPolls motorIDs 0). }
  split.
  - intros m. rewrite <- elem_of_dom, dom_foldl_insert, dom_empty_L.
    rewrite (right_id_L ∅ (∪)), elem_of_list_to_set, list_elem_of_fmap.
    split.
    + intros ([m' v] & -> & Hin). apply Helem in Hin as (k & Hk & Hv).
      exists k. rewrite Hv. auto.
    + intros (k & Hk & Hv).
      destruct (listenOneMotorRound (roundPolls k)) as [ok v] eqn:Hround.
      simpl in Hv. subst ok. exists (m, v). split; [reflexivity|].
      apply Helem. eauto.
  - intros Hnd.
    assert (Hnd' : NoDup settled.*1).
    { exact (sublist_NoDup _ _ Hnd (settledRounds_motors roundPolls motorIDs 0)). }
    split.
    + rewrite <- size_dom, dom_foldl_insert, dom_empty_L, (right_id_L ∅ (∪)).
      rewrite size_list_to_set by exact Hnd'. apply length_fmap.
    + intros m v. rewrite <- Helem. split.
      * intros Hlook.
        assert (Hdom : m ∈ dom (foldl (fun acc p => <[p.1 := p.2]> acc)
                                  (∅ : gmap Z float64) settled)).
        { apply elem_of_dom. eauto. }
        rewrite dom_foldl_insert, dom_empty_L, (right_id_L ∅ (∪)) in Hdom.
        apply elem_of_list_to_set, list_elem_of_fmap in Hdom as ([m' v'] & -> & Hin).
        rewrite (lookup_foldl_insert_NoDup settled ∅ m' v' Hnd' Hin) in Hlook.
        injection Hlook as ->. exact Hin.
      * apply lookup_foldl_insert_NoDup. exact Hnd'.
Qed.

Lemma partial_feedback_succeeds_witness :
  (forall l c, okTransport l c <> PostFailed)
  /\ exists angles params log',
       QueryCurrentAngles okTransport "can0" (MotorIDs leftArm) [] twoOfSeven []
       = ((angles, params, None), log')
       /\ size angles = 2%nat.
Proof.
  assert (Htx : forall l c, okTransport l c <> PostFailed) by discriminate.
  split; [exact Htx|].
  destruct (partial_feedback_succeeds okTransport "can0" (MotorIDs leftArm) []
              twoOfSeven [] Htx)
    as (angles & params & log' & Heq & _ & Hsize).
  exists angles, params, log'. split; [exact Heq|].
  assert (Hnd : NoDup (MotorIDs leftArm)).
  { apply (bool_decide_unpack _). vm_compute. exact I. }
  destruct (Hsize Hnd) as [Hlen _]. rewrite Hlen. vm_compute. reflexivity.
Defined.

(** The same query evaluated: two entries, twenty-eight read requests, no
    error. *)
Example two_of_seven_settle :
  let '(angles, params, err, log) :=
    QueryCurrentAngles okTransport "can0" (MotorIDs leftArm) [] twoOfSeven [] in
  angles = <[61 := float64_of_float32 (Float32frombits 0x3F000000)]>
             (<[63 := float64_of_float32 (Float32frombits 0x3F800000)]> ∅)
  /\ params = ∅ /\ err = None /\ length log = 28%nat.
Proof. vm_compute. repeat split. Qed.

(** A failed post of a read request is the one way the query fails. *)
Example query_fails_on_post :
  (QueryCurrentAngles (fun _ _ => PostFailed) "can0" (MotorIDs leftArm) []
     twoOfSeven []).1.2
  = Some (ErrWrapped CtxReadRequest ErrHTTPRequest).
Proof. vm_compute. reflexivity. Qed.

(** ** Sequence transforms *)

Lemma HasPrefix_empty (s : string) : HasPrefix s "" = true.
Proof. destruct s; reflexivity. Qed.

(** Replacing a one-byte pattern by one byte is a byte-wise map. *)
Lemma Replace_byte (a c : ascii) (s : string) :
  Replace s (String a "") (String c "")
  = mapString (fun x => if bool_decide (a = x) then c else x) s.
Proof.
  unfold Replace. induction s as [|x s IH]; [reflexivity|].
  cbn [replaceFrom mapString HasPrefix]. rewrite HasPrefix_empty, andb_true_r.
  destruct (bool_decide (a = x)); simpl; rewrite IH; reflexivity.
Qed.

Lemma mapString_compose (f g : ascii -> ascii) (s : string) :
  mapString g (mapString f s) = mapString (fun x => g (f x)) s.
Proof. induction s as [|x s IH]; simpl; [|rewrite IH]; reflexivity. Qed.

Lemma mapString_ext (f g : ascii -> ascii) (s : string) :
  (forall x, f x = g x) -> mapString f s = mapString g s.
Proof. intros H. induction s as [|x s IH]; simpl; [|rewrite H, IH]; reflexivity. Qed.

(** C9, as stated, fails: a dot and a dash are neither letters nor digits
    and stay in the file name. *)
Lemma file_name_keeps_punctuation :
  mergedFileName "lift.v2-up" = "lift.v2-up"%string
  /\ mergedFileName "lift.v2-up" <> underscoreNonAlnum "lift.v2-up".
Proof. split; [reflexivity | discriminate]. Qed.

(** C9, amended. For every merged-sequence name, the file name is the name
    with every blank, slash and backslash replaced by an underscore and
    every other byte kept, and the path is that file name followed by
    ".json". *)
Theorem file_name_replaces_separators (name : string) :
  mergedFileName name = underscoreSeparators name
  /\ mergedFilePath name = underscoreSeparators name +:+ ".json".
Proof.
  assert (H : mergedFileName name = underscoreSeparators name).
  { unfold mergedFileName, ReplaceAll, underscoreSeparators.
    rewrite !Replace_byte, !mapString_compose. apply mapString_ext.
    intros x.
    destruct (decide (x = " "%char)) as [->|H1]; [reflexivity|].
    destruct (decide (x = "/"%char)) as [->|H2]; [reflexivity|].
    destruct (decide (x = "\"%char)) as [->|H3]; [reflexivity|].
    rewrite (bool_decide_eq_false_2 (" "%char = x)) by congruence.
    rewrite (bool_decide_eq_false_2 ("/"%char = x)) by congruence.
    rewrite (bool_decide_eq_false_2 ("\"%char = x)) by congruence.
    rewrite (bool_decide_eq_false_2 (x = " "%char)) by congruence.
    rewrite (bool_decide_eq_false_2 (x = "/"%char)) by congruence.
    rewrite (bool_decide_eq_false_2 (x = "\"%char)) by congruence.
    reflexivity. }
  split; [exact H|]. unfold mergedFilePath. rewrite H. reflexivity.
Qed.

(** *** Replacing a two-byte token *)

Lemma Replace2_single (a b x : ascii) (new : string) :
  Replace (String x "") (String a (String b "")) new = String x "".
Proof.
  unfold Replace. cbn [replaceFrom HasPrefix]. rewrite andb_false_r.
  reflexivity.
Qed.

Lemma Replace2_skip (a b x : ascii) (t new : string) :
  x <> a ->
  Replace (String x t) (String a (String b "")) new
  = String x (Replace t (String a (String b "")) new).
Proof.
  intros Hne. unfold Replace. cbn [replaceFrom HasPrefix].
  rewrite (bool_decide_eq_false_2 (a = x)) by congruence. reflexivity.
Qed.

Lemma Replace2_second_differs (a b x y : ascii) (t new : string) :
  y <> b ->
  Replace (String x (String y t)) (String a (String b "")) new
  = String x (Replace (String y t) (String a (String b "")) new).
Proof.
  intros Hne. unfold Replace.
  change (replaceFrom (String a (String b "")) new 0 (String x (String y t)))
    with (if HasPrefix (String x (String y t)) (String a (String b ""))
          then new +:+ replaceFrom (String a (String b "")) new 1 (String y t)
          else String x (replaceFrom (String a (String b "")) new 0
                           (String y t))).
  cbn [HasPrefix]. rewrite (bool_decide_eq_false_2 (b = y)) by congruence.
  rewrite andb_false_r. reflexivity.
Qed.

Lemma Replace2_match (a b : ascii) (t new : string) :
  Replace (String a (String b t)) (String a (String b "")) new
  = new +:+ Replace t (String a (String b "")) new.
Proof.
  unfold Replace.
  change (replaceFrom (String a (String b "")) new 0 (String a (String b t)))
    with (if HasPrefix (String a (String b t)) (String a (String b ""))
          then new +:+ replaceFrom (String a (String b "")) new 0 t
          else String a (replaceFrom (String a (String b "")) new 0
                           (String b t))).
  cbn [HasPrefix]. rewrite !bool_decide_eq_true_2 by reflexivity.
  rewrite HasPrefix_empty. reflexivity.
Qed.

(** The first byte after a replacement is the byte that was there or the
    first byte of the new text. *)
Lemma Replace2_head (a b c n0 : ascii) (t nrest : string) :
  exists t',
    Replace (String c t) (String a (String b "")) (String n0 nrest)
    = String c t'
    \/ Replace (String c t) (String a (String b "")) (String n0 nrest)
       = String n0 t'.
Proof.
  unfold Replace. cbn [replaceFrom].
  destruct (HasPrefix (String c t) (String a (String b ""))).
  - eexists. right. reflexivity.
  - eexists. left. reflexivity.
Qed.

Lemma substituteTokens_pair (x y : ascii) (rest : string) :
  substituteTokens (String x (String y rest))
  = if bool_decide (x = "u"%char /\ y = "p"%char)
    then "down" +:+ substituteTokens rest
    else if bool_decide (x = "U"%char /\ y = "p"%char)
    then "down" +:+ substituteTokens rest
    else if bool_decide (x = "U"%char /\ y = "P"%char)
    then "DOWN" +:+ substituteTokens rest
    else String x (substituteTokens (String y rest)).
Proof. reflexivity. Qed.

Lemma down_append (t : string) :
  "down" +:+ t = String "d" (String "o" (String "w" (String "n" t))).
Proof. reflexivity. Qed.

(** The text "down" in front of a string is passed over by the replacement
    of a token that starts with another byte. *)
Lemma Replace2_past_down (a b : ascii) (t new : string) :
  a <> "d"%char -> a <> "o"%char -> a <> "w"%char -> a <> "n"%char ->
  Replace ("down" +:+ t) (String a (String b "")) new
  = "down" +:+ Replace t (String a (String b "")) new.
Proof.
  intros Hd Ho Hw Hn. rewrite !down_append.
  rewrite !Replace2_skip by congruence. reflexivity.
Qed.

(** The three replacements on a name that starts with one more byte [x],
    when [x] and the byte after it form no token. *)
Lemma downName_keeps_byte (x y : ascii) (rest : string) :
  ~ (x = "u"%char /\ y = "p"%char) ->
  ~ (x = "U"%char /\ y = "p"%char) ->
  ~ (x = "U"%char /\ y = "P"%char) ->
  downName (String x (String y rest)) = String x (downName (String y rest)).
Proof.
  intros H1 H2 H3. unfold downName.
  destruct (decide (x = "u"%char)) as [->|Hu].
  - rewrite Replace2_second_differs by (intros ->; apply H1; auto).
    rewrite !Replace2_skip by discriminate. reflexivity.
  - destruct (decide (x = "U"%char)) as [->|HU].
    + rewrite (Replace2_skip "u" "p" "U") by discriminate.
      destruct (Replace2_head "u" "p" y "d" rest "own") as [t1 [E1|E1]];
        rewrite E1.
      * rewrite Replace2_second_differs by (intros ->; apply H2; auto).
        destruct (Replace2_head "U" "p" y "d" t1 "own") as [t2 [E2|E2]];
          rewrite E2.
        -- rewrite Replace2_second_differs by (intros ->; apply H3; auto).
           reflexivity.
        -- rewrite Replace2_second_differs by discriminate. reflexivity.
      * rewrite Replace2_second_differs by discriminate.
        destruct (Replace2_head "U" "p" "d" "d" t1 "own") as [t2 [E2|E2]];
          rewrite E2; rewrite Replace2_second_differs by discriminate;
          reflexivity.
    + rewrite !Replace2_skip by congruence. reflexivity.
Qed.

Lemma downName_substituteTokens (s : string) :
  downName s = substituteTokens s
  /\ forall x, downName (String x s) = substituteTokens (String x s).
Proof.
  induction s as [|y rest [IH1 IH2]].
  - split; [reflexivity|]. intros x. unfold downName.
    rewrite !Replace2_single. reflexivity.
  - split; [apply IH2|]. intros x. rewrite substituteTokens_pair.
    destruct (decide (x = "u"%char /\ y = "p"%char)) as [[-> ->]|N1].
    { rewrite bool_decide_eq_true_2 by auto. rewrite <- IH1. unfold downName.
      rewrite Replace2_match, !Replace2_past_down by discriminate.
      reflexivity. }
    rewrite (bool_decide_eq_false_2 _ N1).
    destruct (decide (x = "U"%char /\ y = "p"%char)) as [[-> ->]|N2].
    { rewrite bool_decide_eq_true_2 by auto. rewrite <- IH1. unfold downName.
      rewrite !(Replace2_skip "u" "p") by discriminate.
      rewrite Replace2_match, Replace2_past_down by discriminate.
      reflexivity. }
    rewrite (bool_decide_eq_false_2 _ N2).
    destruct (decide (x = "U"%char /\ y = "P"%char)) as [[-> ->]|N3].
    { rewrite bool_decide_eq_true_2 by auto. rewrite <- IH1. unfold downName.
      rewrite !(Replace2_skip "u" "p") by discriminate.
      rewrite Replace2_second_differs by discriminate.
      rewrite (Replace2_skip "U" "p" "P") by discriminate.
      rewrite Replace2_match. reflexivity. }
    rewrite (bool_decide_eq_false_2 _ N3).
    rewrite <- IH2. apply downName_keeps_byte; assumption.
Qed.

(** C6. The derived descending name is the merged name with its direction
    token substituted case by case in one pass: for every name, each
    occurrence of "up" becomes "down", of "Up" becomes "down" and of "UP"
    becomes "DOWN", and every other byte is kept. So the derived name of
    "UP_to_rest" is "DOWN_to_rest" and the derived name of "Up_slow" is
    "down_slow"; both names make the merge an ascending one. *)
Theorem down_name_substitutes_tokens :
  (forall name, downName name = substituteTokens name)
  /\ downName "UP_to_rest" = "DOWN_to_rest"%string
  /\ downName "Up_slow" = "down_slow"%string
  /\ Contains (ToLower "UP_to_rest") "up" = true
  /\ Contains (ToLower "Up_slow") "up" = true.
Proof.
  split; [intros name; apply downName_substituteTokens|]. repeat split.
Qed.

(** A name whose token is written in another mix of cases is an ascending
    merge too, and its derived name is the name itself. *)
Example down_name_mixed_case :
  Contains (ToLower "uP_fast") "up" = true /\ downName "uP_fast" = "uP_fast"%string.
Proof. split; reflexivity. Qed.

(** *** Reversal *)

Lemma fillReversed_reverse (src : list JointAngleSet) :
  forall (n i : nat) (acc : list JointAngleSet),
  n = (i + length src)%nat ->
  fillReversed n i src (replicate (length src) zeroAngleSet ++ acc)
  = reverse src ++ acc.
Proof.
  induction src as [|a rest IH]; intros n i acc Hn.
  - reflexivity.
  - cbn [fillReversed length]. simpl in Hn.
    replace (n - 1 - i)%nat with (length rest) by lia.
    rewrite replicate_S_end, <- app_assoc. cbn [app].
    rewrite insert_app_r_alt by (rewrite length_replicate; lia).
    rewrite length_replicate, Nat.sub_diag. cbn [insert list_insert].
    rewrite (IH n (S i) (a :: acc)) by lia.
    rewrite reverse_cons, <- app_assoc. reflexivity.
Qed.

(** The copy loop reverses the way-points but the last one. *)
Lemma reverseWithoutLast_spec (angles : list JointAngleSet) :
  reverseWithoutLast angles
  = if bool_decide (1 < length angles)%nat
    then reverse (take (length angles - 1) angles)
    else angles.
Proof.
  unfold reverseWithoutLast. case_bool_decide; [|reflexivity].
  pose proof (fillReversed_reverse (take (length angles - 1) angles)
                (length (take (length angles - 1) angles)) 0 [] eq_refl) as Hfill.
  rewrite !app_nil_r in Hfill. exact Hfill.
Qed.

Lemma reverseWithoutLast_subset (angles : list JointAngleSet) (x : JointAngleSet) :
  x ∈ reverseWithoutLast angles -> x ∈ angles.
Proof.
  rewrite reverseWithoutLast_spec. case_bool_decide; [|auto].
  rewrite elem_of_reverse. intros Hin.
  rewrite <- (take_drop (length angles - 1) angles). apply elem_of_app. auto.
Qed.

(** *** The ascending merge and its mirror *)

Lemma saveMergedSequence_ok (canWrite : string -> bool) (name : string)
    (sequences : list JointSequence) (disk : Disk) :
  marshalOK sequences = true -> canWrite (mergedFilePath name) = true ->
  saveMergedSequence canWrite name sequences disk
  = (None, <[mergedFilePath name := sequences]> disk).
Proof.
  intros Hm Hw. unfold saveMergedSequence. rewrite Hm, Hw. reflexivity.
Qed.

Lemma initAngles_finite (armModel : string) :
  map_Forall (fun _ v => f32_is_nan_or_inf v = false) (Values (leftInitAngle armModel))
  /\ map_Forall (fun _ v => f32_is_nan_or_inf v = false)
       (Values (rightInitAngle armModel)).
Proof.
  unfold leftInitAngle, rightInitAngle, Angle2set62, Angle2set52.
  destruct (bool_decide (armModel = "new"%string));
    split; cbn [Values list_to_map foldr uncurry fst snd];
    repeat (apply map_Forall_insert_2; [reflexivity|]);
    apply map_Forall_empty.
Qed.

Lemma marshalOK_pair (s1 s2 : JointSequence) :
  marshalOK [s1; s2] = anglesFinite (Angles s1) && anglesFinite (Angles s2).
Proof. unfold marshalOK, anglesFinite. simpl. rewrite andb_true_r. reflexivity. Qed.

Lemma anglesFinite_reverseWithoutLast (angles : list JointAngleSet) :
  anglesFinite angles = true -> anglesFinite (reverseWithoutLast angles) = true.
Proof.
  unfold anglesFinite. rewrite !forallb_forall. intros H x Hx.
  apply H. apply list_elem_of_In, reverseWithoutLast_subset, list_elem_of_In, Hx.
Qed.

Lemma anglesFinite_init (armModel : string) (angles : list JointAngleSet) :
  anglesFinite angles = true ->
  anglesFinite (leftInitAngle armModel :: angles) = true
  /\ anglesFinite (rightInitAngle armModel :: angles) = true.
Proof.
  intros H. destruct (initAngles_finite armModel) as [Hl Hr].
  unfold anglesFinite in *. simpl. rewrite H.
  rewrite !bool_decide_eq_true_2 by assumption. auto.
Qed.

(** C3. An ascending merge (the merged name contains "up" in some case)
    whose first sequence holds the way-points p1, p2, p3, under the
    generation tag "old", with both files saved, answers with an ascending
    left sequence init, p1, p2, p3 and a descending left sequence
    p2, p1, init: the ascending one without its last way-point, reversed.
    init is named by [initName] and sets joint 62 to +0.1 and joints 61 and
    63 to 67 to 0. *)
Theorem mirror_derivation (canWrite : string -> bool)
    (config : list JointSequence) (req : MergeRequest) (disk : Disk)
    (seq1 seq2 : JointSequence) (p1 p2 p3 : JointAngleSet) :
  findSequence (Sequence1Name req) config None = Some seq1 ->
  findSequence (Sequence2Name req) config None = Some seq2 ->
  Angles seq1 = [p1; p2; p3] ->
  resolveArmModel req seq1 = "old"%string ->
  Contains (ToLower (MergedName req)) "up" = true ->
  marshalOK [seq1; seq2] = true ->
  (forall path, canWrite path = true) ->
  let resp := fst (mergeSequencesHandler canWrite config req disk) in
  let init :=
    mkJointAngleSet initName
      (list_to_map
         [("61", f32_zero); ("62", f32_0_1); ("63", f32_zero);
          ("64", f32_zero); ("65", f32_zero); ("66", f32_zero);
          ("67", f32_zero)]%string) in
  Success resp = true
  /\ upLeftAngles resp = Some [init; p1; p2; p3]
  /\ downLeftAngles resp = Some [p2; p1; init]
  /\ downLeftAngles resp
     = Some (reverse (take 3 [init; p1; p2; p3])).
Proof.
  intros Hf1 Hf2 Hangles Hmodel Hup Hm Hw.
  rewrite marshalOK_pair in Hm. apply andb_true_iff in Hm as [Hm1 Hm2].
  destruct (anglesFinite_init "old" _ Hm1) as [HL _].
  destruct (anglesFinite_init "old" _ Hm2) as [_ HR].
  unfold mergeSequencesHandler. rewrite Hf1, Hf2, Hmodel, Hup. cbv zeta.
  rewrite saveMergedSequence_ok;
    [| rewrite marshalOK_pair; cbn [withAngles Angles]; rewrite HL, HR; reflexivity
     | apply Hw].
  rewrite saveMergedSequence_ok;
    [| rewrite marshalOK_pair; cbn [withAngles Angles];
       rewrite !anglesFinite_reverseWithoutLast by assumption; reflexivity
     | apply Hw].
  unfold upLeftAngles, downLeftAngles.
  cbn [fst RespData Success withAngles Angles]. rewrite Hangles.
  repeat split.
Qed.

Lemma mirror_derivation_witness :
  upLeftAngles (fst (mergeSequencesHandler alwaysWritable exampleConfig
                       exampleRequest ∅))
  = Some [leftInitAngle "old"; wayPoint "p1" "61" 0x3F000000;
          wayPoint "p2" "62" 0x3F800000; wayPoint "p3" "63" 0x3FC00000]
  /\ downLeftAngles (fst (mergeSequencesHandler alwaysWritable exampleConfig
                            exampleRequest ∅))
     = Some [wayPoint "p2" "62" 0x3F800000; wayPoint "p1" "61" 0x3F000000;
             leftInitAngle "old"].
Proof.
  pose proof (mirror_derivation alwaysWritable exampleConfig exampleRequest ∅
                (mkJointSequence "rec_left" "left" ""
                   [wayPoint "p1" "61" 0x3F000000; wayPoint "p2" "62" 0x3F800000;
                    wayPoint "p3" "63" 0x3FC00000])
                (mkJointSequence "rec_right" "right" ""
                   [wayPoint "q1" "51" 0x3F000000; wayPoint "q2" "52" 0x3F800000])
                _ _ _ eq_refl eq_refl eq_refl eq_refl eq_refl eq_refl
                (fun _ => eq_refl)) as (_ & Hup & Hdown & _).
  split; [exact Hup | exact Hdown].
Defined.

(** For the "new" generation the offset of joint 62 is -0.1. *)
Example leftInitAngle_new :
  Values (leftInitAngle "new") !! "62"%string = Some f32_neg_0_1
  /\ Values (leftInitAngle "old") !! "62"%string = Some f32_0_1
  /\ Values (rightInitAngle "old") !! "52"%string = Some f32_neg_0_1.
Proof. vm_compute. repeat split. Qed.

(** The whole answer on the recorded pair: both file names. *)
Example merge_example_files :
  Message (fst (mergeSequencesHandler alwaysWritable exampleConfig exampleRequest ∅))
  = MsgUpAndDown "UP_to_rest" "DOWN_to_rest"
  /\ dom (snd (mergeSequencesHandler alwaysWritable exampleConfig exampleRequest ∅))
     = {["UP_to_rest.json"; "DOWN_to_rest.json"]}%string.
Proof. vm_compute. split; reflexivity. Qed.

(** * Further properties of the dispatcher *)

Lemma isValidJoint_elem (b : BlackArmController) (id : Z) :
  isValidJoint b id = true <-> id ∈ MotorIDs b.
Proof.
  unfold isValidJoint. rewrite existsb_exists. split.
  - intros (x & Hin & Heq). apply Z.eqb_eq in Heq. subst x.
    apply list_elem_of_In, Hin.
  - intros Hin. exists id. split; [apply list_elem_of_In, Hin | apply Z.eqb_refl].
Qed.

Lemma isValidJoint_not_elem (b : BlackArmController) (id : Z) :
  id ∉ MotorIDs b -> isValidJoint b id = false.
Proof.
  intros Hnot. destruct (isValidJoint b id) eqn:H; [|reflexivity].
  apply isValidJoint_elem in H. contradiction.
Qed.

(** A loop of posts whose every step succeeds hands over one frame per
    element, in order. *)
Lemma forEach_all_ok {A : Type} (f : A -> Bus (option error))
    (frame : A -> list CANMessage) (l : list A) :
  (forall x log, x ∈ l -> f x log = (None, log ++ frame x)) ->
  forall log, forEach f l log = (None, log ++ concat (map frame l)).
Proof.
  induction l as [|x l IH]; intros Hf log; simpl.
  - rewrite app_nil_r. reflexivity.
  - unfold bind. rewrite Hf by apply list_elem_of_here.
    rewrite IH by (intros y log' Hy; apply Hf, list_elem_of_further, Hy).
    rewrite <- app_assoc. reflexivity.
Qed.

(** A loop of posts stops at the first step that reports an error: the
    elements after it are not looked at. *)
Lemma forEach_stops {A : Type} (f : A -> Bus (option error))
    (frame : A -> list CANMessage) (pre post : list A) (m : A) (e : error) :
  (forall x log, x ∈ pre -> f x log = (None, log ++ frame x)) ->
  (forall log, snd (f m log) = log ++ frame m) ->
  forall log,
  fst (f m (log ++ concat (map frame pre))) = Some e ->
  forEach f (pre ++ m :: post) log
  = (Some e, log ++ concat (map frame (pre ++ [m]))).
Proof.
  intros Hf Hsnd. induction pre as [|x pre IH]; intros log Hm; simpl in *.
  - unfold bind. rewrite app_nil_r in *. specialize (Hsnd log).
    destruct (f m log) as [r log']. simpl in *. subst. reflexivity.
  - unfold bind. rewrite Hf by apply list_elem_of_here.
    rewrite app_assoc in Hm.
    rewrite IH;
      [ rewrite <- app_assoc; reflexivity
      | intros y log' Hy; apply Hf, list_elem_of_further, Hy
      | exact Hm ].
Qed.

(** X1. A joint id that is not one of the arm's motors is refused by each of
    the six single-joint setters with the invalid-joint error, and no frame
    is handed to the transport. *)
Theorem invalid_joint_no_traffic (tx : Transport) (b : BlackArmController)
    (id : Z) (v : float32) (log : list CANMessage) :
  id ∉ MotorIDs b ->
  SetAngle tx b id v log = (Some (ErrInvalidJoint id), log)
  /\ SetSpeed tx b id v log = (Some (ErrInvalidJoint id), log)
  /\ SetMotorLocKp tx b id v log = (Some (ErrInvalidJoint id), log)
  /\ SetMotorSpeedKp tx b id v log = (Some (ErrInvalidJoint id), log)
  /\ SetMotorSpeedKi tx b id v log = (Some (ErrInvalidJoint id), log)
  /\ SetMotorSpeedFiltGain tx b id v log = (Some (ErrInvalidJoint id), log).
Proof.
  intros Hnot. apply isValidJoint_not_elem in Hnot.
  unfold SetAngle, SetSpeed, SetMotorLocKp, SetMotorSpeedKp, SetMotorSpeedKi,
    SetMotorSpeedFiltGain, setGain.
  rewrite Hnot. repeat split.
Qed.

Lemma invalid_joint_no_traffic_witness :
  (51 ∉ MotorIDs leftArm)
  /\ SetAngle okTransport leftArm 51 f32_0_1 [] = (Some (ErrInvalidJoint 51), []).
Proof.
  assert (H : 51 ∉ MotorIDs leftArm).
  { intros Hin. apply isValidJoint_elem in Hin. discriminate Hin. }
  split; [exact H|].
  exact (proj1 (invalid_joint_no_traffic okTransport leftArm 51 f32_0_1 [] H)).
Defined.

(** X2. For a joint of the arm, [SetAngle] hands exactly one frame to the
    transport, the angle frame of that joint, and reports success exactly
    when the bridge answers with status 200; any other status, other 2xx
    ones included, and a failed post are errors. *)
Theorem SetAngle_posts_one_frame (tx : Transport) (b : BlackArmController)
    (id : Z) (angle : float32) (log : list CANMessage) :
  id ∈ MotorIDs b ->
  snd (SetAngle tx b id angle log) = log ++ [angleCommand b id angle]
  /\ (fst (SetAngle tx b id angle log) = None
      <-> tx log (angleCommand b id angle) = PostStatus 200).
Proof.
  intros Hin. apply isValidJoint_elem in Hin.
  unfold SetAngle, bind, sendCommand, ret. rewrite Hin. cbn [fst snd].
  split; [reflexivity|].
  destruct (tx log (angleCommand b id angle)) as [|code]; simpl.
  - split; discriminate.
  - destruct (Z.eqb_spec code 200) as [->|Hne]; simpl.
    + split; reflexivity.
    + split; [discriminate | intros [= H]; contradiction].
Qed.

Lemma SetAngle_posts_one_frame_witness :
  (62 ∈ MotorIDs leftArm)
  /\ snd (SetAngle (fun _ _ => PostStatus 204) leftArm 62 f32_0_1 [])
     = [angleCommand leftArm 62 f32_0_1]
  /\ fst (SetAngle (fun _ _ => PostStatus 204) leftArm 62 f32_0_1 []) <> None.
Proof.
  assert (H : 62 ∈ MotorIDs leftArm) by (apply isValidJoint_elem; reflexivity).
  destruct (SetAngle_posts_one_frame (fun _ _ => PostStatus 204) leftArm 62
              f32_0_1 [] H) as [Hlog Hres].
  split; [exact H | split; [exact Hlog |]].
  intros Hnone. apply Hres in Hnone. discriminate Hnone.
Defined.

(** X3. [enableSingleMotor] hands the mode frame over first. When the
    bridge does not answer it with status 200, the drive-enable frame is
    never sent and the error names the mode step; otherwise the
    drive-enable frame follows and decides the result. *)
Theorem enable_sends_mode_first (tx : Transport) (b : BlackArmController)
    (m : Z) (log : list CANMessage) :
  (tx log (setModeCommand b m) <> PostStatus 200 ->
   snd (enableSingleMotor tx b m log) = log ++ [setModeCommand b m]
   /\ exists e, fst (enableSingleMotor tx b m log)
                = Some (ErrWrapped CtxSetMode e))
  /\ (tx log (setModeCommand b m) = PostStatus 200 ->
      snd (enableSingleMotor tx b m log)
      = log ++ [setModeCommand b m; enableCommand b m]
      /\ (fst (enableSingleMotor tx b m log) = None
          <-> tx (log ++ [setModeCommand b m]) (enableCommand b m)
              = PostStatus 200)).
Proof.
  unfold enableSingleMotor, bind, sendCommand, ret. split.
  - intros Hfail. destruct (tx log (setModeCommand b m)) as [|code]; simpl.
    + eauto.
    + destruct (Z.eqb_spec code 200) as [->|Hne]; [contradiction|]. simpl. eauto.
  - intros Hok. rewrite Hok. simpl. rewrite <- app_assoc. split; [reflexivity|].
    destruct (tx (log ++ [setModeCommand b m]) (enableCommand b m)) as [|code]; simpl.
    + split; discriminate.
    + destruct (Z.eqb_spec code 200) as [->|Hne]; simpl.
      * split; reflexivity.
      * split; [discriminate | intros [= H]; contradiction].
Qed.

Lemma enable_sends_mode_first_witness :
  snd (enableSingleMotor (fun _ _ => PostFailed) leftArm 61 [])
  = [setModeCommand leftArm 61].
Proof.
  refine (proj1 (proj1 (enable_sends_mode_first (fun _ _ => PostFailed)
                          leftArm 61 []) _)).
  discriminate.
Defined.

(** X4. [DisableMotor] goes through the motors in order and stops at the
    first one whose frame the bridge does not answer with status 200: the
    frames of the motors before it and its own were handed over, those of
    the motors after it were not, and the error names that motor. *)
Theorem DisableMotor_stops_at_first_failure (tx : Transport)
    (b : BlackArmController) (pre post : list Z) (m : Z)
    (log : list CANMessage) :
  MotorIDs b = pre ++ m :: post ->
  (forall x l, x ∈ pre -> tx l (disableCommand b x) = PostStatus 200) ->
  (forall l, tx l (disableCommand b m) <> PostStatus 200) ->
  snd (DisableMotor tx b log) = log ++ map (disableCommand b) (pre ++ [m])
  /\ exists e, fst (DisableMotor tx b log)
               = Some (ErrWrapped (CtxDisable m) e).
Proof.
  intros Hids Hpre Hm. unfold DisableMotor. rewrite Hids.
  set (f := fun motorID : Z =>
              do r <- sendCommand tx (disableCommand b motorID);
              ret (wrap (CtxDisable motorID) r)).
  assert (Hfail : exists e,
             fst (f m (log ++ concat (map (fun x => [disableCommand b x]) pre)))
             = Some (ErrWrapped (CtxDisable m) e)).
  { unfold f, bind, sendCommand, ret.
    specialize (Hm (log ++ concat (map (fun x => [disableCommand b x]) pre))).
    destruct (tx _ (disableCommand b m)) as [|code]; simpl; [eauto|].
    destruct (Z.eqb_spec code 200) as [->|Hne]; [contradiction | simpl; eauto]. }
  destruct Hfail as [e He].
  rewrite (forEach_stops f (fun x => [disableCommand b x]) pre post m
             (ErrWrapped (CtxDisable m) e));
    [ | | | exact He ].
  - cbn [fst snd]. split; [|eauto]. f_equal.
    induction (pre ++ [m]) as [|x l IH]; simpl; [|rewrite IH]; reflexivity.
  - intros x l Hx. unfold f, bind, sendCommand, ret. rewrite (Hpre x l Hx).
    reflexivity.
  - intros l. unfold f, bind, sendCommand, ret. reflexivity.
Qed.

Lemma DisableMotor_stops_at_first_failure_witness :
  length (snd (DisableMotor
                 (fun _ c => if ID c =? 0x0400FD00 + 63
                             then PostStatus 500 else PostStatus 200)
                 leftArm [])) = 3%nat.
Proof.
  destruct (DisableMotor_stops_at_first_failure
              (fun _ c => if ID c =? 0x0400FD00 + 63
                          then PostStatus 500 else PostStatus 200)
              leftArm [61; 62] [64; 65; 66; 67] 63 [] eq_refl) as [Hlog _].
  - intros x l Hx. apply elem_of_cons in Hx as [->|Hx]; [reflexivity|].
    apply list_elem_of_singleton in Hx as ->. reflexivity.
  - intros l. discriminate.
  - rewrite Hlog. reflexivity.
Defined.

(** X5. With a bridge that accepts every frame, [SetMotorZeroByIDs]
    succeeds; an empty list stands for all the motors of the arm, and in a
    non-empty list the ids that are not motors of the arm are passed over
    without a frame and without an error. *)
Theorem SetMotorZeroByIDs_skips_foreign_ids (tx : Transport)
    (b : BlackArmController) (ids : list Z) (log : list CANMessage) :
  (forall l c, tx l c = PostStatus 200) ->
  SetMotorZeroByIDs tx b ids log
  = (None,
     log ++ map (setZeroCommand b)
              (match ids with
               | [] => MotorIDs b
               | _ => filter (fun m => m ∈ MotorIDs b) ids
               end)).
Proof.
  intros Htx.
  assert (Hone : forall m l,
             setSingleMotorZero tx b m l = (None, l ++ [setZeroCommand b m])).
  { intros m l. unfold setSingleMotorZero, bind, sendCommand, ret.
    rewrite Htx. reflexivity. }
  assert (Hflat : forall l : list Z,
             concat (map (fun x => [setZeroCommand b x]) l)
             = map (setZeroCommand b) l).
  { induction l as [|x l IH]; simpl; [|rewrite IH]; reflexivity. }
  destruct ids as [|i ids].
  - unfold SetMotorZeroByIDs, SetMotorZero.
    rewrite (forEach_all_ok _ (fun x => [setZeroCommand b x]))
      by (intros; apply Hone).
    rewrite Hflat. reflexivity.
  - unfold SetMotorZeroByIDs.
    rewrite (forEach_all_ok _
               (fun x => if isValidJoint b x then [setZeroCommand b x] else [])).
    + f_equal. f_equal. generalize (i :: ids). intros l.
      induction l as [|x l IH]; [reflexivity|].
      cbn [map concat]. rewrite IH, filter_cons.
      destruct (isValidJoint b x) eqn:Hv.
      * apply isValidJoint_elem in Hv. rewrite decide_True by exact Hv.
        reflexivity.
      * rewrite decide_False; [reflexivity|].
        intros Hin. apply isValidJoint_elem in Hin. congruence.
    + intros x l _. destruct (isValidJoint b x).
      * unfold bind. rewrite Hone. reflexivity.
      * unfold ret. rewrite app_nil_r. reflexivity.
Qed.

Lemma SetMotorZeroByIDs_skips_foreign_ids_witness :
  (forall l c, okTransport l c = PostStatus 200)
  /\ SetMotorZeroByIDs okTransport leftArm [51; 62; 99; 61] []
     = (None, [setZeroCommand leftArm 62; setZeroCommand leftArm 61]).
Proof.
  assert (H : forall l c, okTransport l c = PostStatus 200) by reflexivity.
  split; [exact H|].
  exact (SetMotorZeroByIDs_skips_foreign_ids okTransport leftArm
           [51; 62; 99; 61] [] H).
Defined.

(** *** The fan-out of [SetAngles] *)

Lemma zip_motor_elem (b : BlackArmController) (angles : list float32)
    (i : nat) (m : Z) (a : float32) :
  zip (MotorIDs b) angles !! i = Some (m, a) -> isValidJoint b m = true.
Proof.
  intros H. apply isValidJoint_elem.
  apply (list_elem_of_lookup_2 _ i) in H.
  apply (elem_of_zip_l _ _ _ _ H).
Qed.

Lemma omap_cons_eq {A B : Type} (f : A -> option B) (x : A) (l : list A) :
  omap f (x :: l)
  = match f x with Some y => y :: omap f l | None => omap f l end.
Proof. reflexivity. Qed.

Lemma runGoroutines_log (tx : Transport) (b : BlackArmController)
    (angles : list float32) (posts : list nat) :
  forall (results : gmap nat (option error)) (log : list CANMessage),
  snd (runGoroutines tx b (zip (MotorIDs b) angles) posts results log)
  = log ++ omap (fun i => uncurry (angleCommand b)
                            <$> zip (MotorIDs b) angles !! i) posts.
Proof.
  induction posts as [|i posts IH]; intros results log; cbn [runGoroutines].
  - unfold ret. simpl. rewrite app_nil_r. reflexivity.
  - rewrite omap_cons_eq.
    destruct (zip (MotorIDs b) angles !! i) as [[m a]|] eqn:Hjob;
      cbn [fmap option_fmap option_map].
    + unfold bind, SetAngle. rewrite (zip_motor_elem b angles i m a Hjob).
      unfold bind, sendCommand, ret. cbn [uncurry fst snd].
      rewrite IH, <- app_assoc. reflexivity.
    + apply IH.
Qed.

Lemma omap_lookup_seq {A B : Type} (g : A -> B) (l pre : list A) :
  omap (fun i => g <$> (pre ++ l) !! i) (seq (length pre) (length l))
  = map g l.
Proof.
  revert pre. induction l as [|x l IH]; intros pre; [reflexivity|].
  cbn [length seq map]. rewrite omap_cons_eq.
  rewrite lookup_app_r, Nat.sub_diag by lia.
  cbn [lookup list_lookup fmap option_fmap option_map].
  f_equal. specialize (IH (pre ++ [x])).
  rewrite length_app, <- app_assoc in IH. cbn [length app] in IH.
  rewrite Nat.add_1_r in IH. exact IH.
Qed.

(** X6. With as many angles as motors, [SetAngles] hands the angle frame of
    every scheduled goroutine to the transport, in the order of the
    schedule and whatever the bridge answers to the others: a failure of one
    joint keeps no other joint's frame back. When the schedule runs every
    goroutine once, each joint's frame is handed over exactly once. *)
Theorem SetAngles_posts_every_frame (tx : Transport) (b : BlackArmController)
    (angles : list float32) (posts deliveries : list nat)
    (log : list CANMessage) :
  length angles = length (MotorIDs b) ->
  let frames :=
    omap (fun i => uncurry (angleCommand b) <$> zip (MotorIDs b) angles !! i)
         posts in
  snd (SetAngles tx b angles posts deliveries log) = log ++ frames
  /\ (posts ≡ₚ seq 0 (length (MotorIDs b)) ->
      frames ≡ₚ map (uncurry (angleCommand b)) (zip (MotorIDs b) angles)).
Proof.
  intros Hlen frames. split.
  - unfold SetAngles. rewrite bool_decide_eq_false_2 by (intros H; apply H, Hlen).
    unfold bind.
    pose proof (runGoroutines_log tx b angles posts ∅ log) as H.
    destruct (runGoroutines tx b (zip (MotorIDs b) angles) posts ∅ log)
      as [results log'].
    exact H.
  - intros Hperm. unfold frames. rewrite Hperm.
    pose proof (omap_lookup_seq (uncurry (angleCommand b))
                  (zip (MotorIDs b) angles) []) as H.
    cbn [length app] in H. rewrite length_zip, Hlen, Nat.min_id in H.
    rewrite H. reflexivity.
Qed.

Lemma SetAngles_posts_every_frame_witness :
  map ID (snd (SetAngles (fun _ _ => PostFailed) rightArm
                 (replicate 7 f32_0_1) [3; 0; 6; 1; 5; 2; 4]%nat
                 [0; 1; 2; 3; 4; 5; 6]%nat []))
  = map (fun m => 0x1200FD00 + m) [54; 51; 57; 52; 56; 53; 55].
Proof.
  rewrite (proj1 (SetAngles_posts_every_frame (fun _ _ => PostFailed) rightArm
                    (replicate 7 f32_0_1) [3; 0; 6; 1; 5; 2; 4]%nat
                    [0; 1; 2; 3; 4; 5; 6]%nat [] eq_refl)).
  reflexivity.
Defined.

Lemma SetAngle_result_shape (tx : Transport) (b : BlackArmController)
    (m : Z) (a : float32) (log : list CANMessage) :
  isValidJoint b m = true -> transportErrorFor b (fst (SetAngle tx b m a log)).
Proof.
  intros Hv. unfold SetAngle, bind, sendCommand, ret. rewrite Hv. cbn [fst].
  apply isValidJoint_elem in Hv.
  destruct (tx log (angleCommand b m a)) as [|code]; simpl.
  - exists m, ErrHTTPRequest. auto.
  - destruct (Z.eqb_spec code 200) as [->|Hne]; simpl; [exact I|].
    exists m, (ErrHTTPStatus code). eauto 6.
Qed.

Lemma runGoroutines_results (tx : Transport) (b : BlackArmController)
    (angles : list float32) (posts : list nat) :
  forall (results : gmap nat (option error)) (log : list CANMessage),
  map_Forall (fun _ r => transportErrorFor b r) results ->
  map_Forall (fun _ r => transportErrorFor b r)
    (fst (runGoroutines tx b (zip (MotorIDs b) angles) posts results log)).
Proof.
  induction posts as [|i posts IH]; intros results log Hres; cbn [runGoroutines].
  - exact Hres.
  - destruct (zip (MotorIDs b) angles !! i) as [[m a]|] eqn:Hjob.
    + unfold bind.
      pose proof (SetAngle_result_shape tx b m a log
                    (zip_motor_elem b angles i m a Hjob)) as Hshape.
      destruct (SetAngle tx b m a log) as [r log']. cbn [fst] in Hshape.
      apply IH. apply map_Forall_insert_2; assumption.
    + apply IH, Hres.
Qed.

Lemma receive_shape (b : BlackArmController) (delivered : list (option error)) :
  Forall (transportErrorFor b) delivered -> transportErrorFor b (receive delivered).
Proof.
  induction 1 as [|[e|] l Hx Hl IH]; simpl; [exact I | exact Hx | exact IH].
Qed.

(** X7. [ReturnZero] always passes the length check: it can fail only
    through the transport, with the wrapped error of a joint of the arm
    whose post failed or was answered with a status other than 200; and
    every frame it hands over carries the target-angle index and the bits
    of +0.0. *)
Theorem ReturnZero_fails_only_by_transport (tx : Transport)
    (b : BlackArmController) (posts deliveries : list nat)
    (log : list CANMessage) :
  transportErrorFor b (fst (ReturnZero tx b posts deliveries log))
  /\ exists frames,
       snd (ReturnZero tx b posts deliveries log) = log ++ frames
       /\ Forall (fun c => Data c = [0x16; 0x70; 0; 0; 0; 0; 0; 0]
                           /\ exists m, m ∈ MotorIDs b
                                        /\ c = angleCommand b m f32_zero)
                 frames.
Proof.
  unfold ReturnZero, SetAngles.
  rewrite bool_decide_eq_false_2
    by (intros H; apply H; apply length_replicate).
  set (angles := replicate (length (MotorIDs b)) f32_zero).
  unfold bind.
  pose proof (runGoroutines_results tx b angles posts ∅ log (map_Forall_empty _))
    as Hres.
  pose proof (runGoroutines_log tx b angles posts ∅ log) as Hlog.
  destruct (runGoroutines tx b (zip (MotorIDs b) angles) posts ∅ log)
    as [results log']. cbn [fst snd ret] in *. split.
  - apply receive_shape, Forall_forall. intros r Hr.
    apply list_elem_of_fmap in Hr as (i & -> & _).
    destruct (results !! i) as [r|] eqn:Hi; simpl; [|exact I].
    exact (Hres i r Hi).
  - eexists. split; [exact Hlog|].
    apply Forall_forall. intros c Hc.
    apply list_elem_of_omap in Hc as (i & _ & Hc).
    destruct (zip (MotorIDs b) angles !! i) as [[m a]|] eqn:Hjob; [|discriminate].
    injection Hc as <-. cbn [uncurry fst snd].
    apply (list_elem_of_lookup_2 _ i) in Hjob.
    pose proof (elem_of_zip_l _ _ _ _ Hjob) as Hm.
    apply elem_of_zip_r in Hjob. apply elem_of_replicate in Hjob as [-> _].
    split; [reflexivity | exists m; auto].
Qed.

(** X8. [SetSpeeds], unlike [SetAngles], goes joint by joint and stops at the
    first joint whose frame the bridge does not answer with status 200: the
    joints after it get no frame, and the error names that joint. *)
Theorem SetSpeeds_stops_at_first_failure (tx : Transport)
    (b : BlackArmController) (pre post : list Z) (m : Z)
    (spre spost : list float32) (s : float32) (log : list CANMessage) :
  MotorIDs b = pre ++ m :: post ->
  length spre = length pre -> length spost = length post ->
  (forall x v l, x ∈ pre -> tx l (speedCommand b x v) = PostStatus 200) ->
  (forall l, tx l (speedCommand b m s) <> PostStatus 200) ->
  snd (SetSpeeds tx b (spre ++ s :: spost) log)
  = log ++ map (uncurry (speedCommand b)) (zip pre spre ++ [(m, s)])
  /\ exists e, fst (SetSpeeds tx b (spre ++ s :: spost) log)
               = Some (ErrWrapped (CtxSetSpeed m) e).
Proof.
  intros Hids Hl1 Hl2 Hpre Hm. unfold SetSpeeds.
  rewrite bool_decide_eq_false_2
    by (intros H; apply H; rewrite Hids, !length_app; simpl; lia).
  assert (Hvalid : forall x, x ∈ pre ++ [m] -> isValidJoint b x = true).
  { intros x Hx. apply isValidJoint_elem. rewrite Hids.
    apply elem_of_app in Hx as [Hx|Hx]; apply elem_of_app; [auto|].
    right. apply list_elem_of_singleton in Hx as ->. apply list_elem_of_here. }
  rewrite Hids, zip_with_app by (symmetry; exact Hl1). cbn [zip_with].
  set (f := fun '(motorID, speed) => SetSpeed tx b motorID speed).
  set (frame := fun p : Z * float32 => [uncurry (speedCommand b) p]).
  assert (Hflat : forall l : list (Z * float32),
             concat (map frame l) = map (uncurry (speedCommand b)) l).
  { induction l as [|x l IH]; simpl; [|rewrite IH]; reflexivity. }
  assert (Hfail : exists e,
             fst (f (m, s) (log ++ concat (map frame (zip pre spre))))
             = Some (ErrWrapped (CtxSetSpeed m) e)).
  { unfold f, SetSpeed, bind, sendCommand, ret.
    rewrite Hvalid by (apply elem_of_app; right; apply list_elem_of_here).
    specialize (Hm (log ++ concat (map frame (zip pre spre)))).
    destruct (tx _ (speedCommand b m s)) as [|code]; simpl; [eauto|].
    destruct (Z.eqb_spec code 200) as [->|Hne]; [contradiction | simpl; eauto]. }
  destruct Hfail as [e He].
  rewrite (forEach_stops f frame (zip pre spre) (zip post spost) (m, s)
             (ErrWrapped (CtxSetSpeed m) e)); [ | | | exact He].
  - cbn [fst snd]. rewrite Hflat. eauto.
  - intros [x v] l Hx. unfold f, SetSpeed, bind, sendCommand, ret.
    apply elem_of_zip_l in Hx.
    rewrite Hvalid by (apply elem_of_app; auto).
    rewrite (Hpre x v l Hx). reflexivity.
  - intros l. unfold f, SetSpeed, bind, sendCommand, ret.
    rewrite Hvalid by (apply elem_of_app; right; apply list_elem_of_here).
    reflexivity.
Qed.

Lemma SetSpeeds_stops_at_first_failure_witness :
  map ID (snd (SetSpeeds
                 (fun _ c => if ID c =? 0x1200FD00 + 52
                             then PostFailed else PostStatus 200)
                 rightArm (replicate 7 f32_0_1) []))
  = [0x1200FD00 + 51; 0x1200FD00 + 52].
Proof.
  destruct (SetSpeeds_stops_at_first_failure
              (fun _ c => if ID c =? 0x1200FD00 + 52
                          then PostFailed else PostStatus 200)
              rightArm [51] [53; 54; 55; 56; 57] 52
              [f32_0_1] (replicate 5 f32_0_1) f32_0_1 []
              eq_refl eq_refl eq_refl) as [Hlog _].
  - intros x v l Hx. apply list_elem_of_singleton in Hx as ->. reflexivity.
  - intros l. discriminate.
  - change (replicate 7 f32_0_1)
      with ([f32_0_1] ++ f32_0_1 :: replicate 5 f32_0_1).
    rewrite Hlog. reflexivity.
Defined.

(** * Further properties of the codec *)

(** X9. The payload of a read request is eight bytes that carry the 16-bit
    register index little-endian in bytes 0 and 1 and zero everywhere else:
    read back through the decoder it gives the index and the bits of
    +0.0. *)
Theorem read_request_payload (idx : Z) :
  is_u16 idx ->
  length (buildReadReqData idx) = 8%nat
  /\ drop 2 (buildReadReqData idx) = [0; 0; 0; 0; 0; 0]
  /\ decode (hexTokens (buildReadReqData idx)) = Some (idx, Float32frombits 0).
Proof.
  intros Hidx. split; [reflexivity | split; [reflexivity|]].
  unfold buildReadReqData.
  assert (Hu8 : forall x, u8 (Z.land x 0xFF) = Z.land x 0xFF).
  { intros x. unfold u8. apply Z.mod_small. apply is_u8_mask. }
  rewrite !Hu8.
  rewrite decode_hexTokens;
    try apply is_u8_mask; try (unfold is_u8; lia).
  rewrite index_bytes_join by exact Hidx. reflexivity.
Qed.

Lemma read_request_payload_witness :
  is_u16 idxSpdKp
  /\ decode (hexTokens (buildReadReqData idxSpdKp))
     = Some (idxSpdKp, Float32frombits 0).
Proof.
  assert (H : is_u16 idxSpdKp) by (unfold is_u16, idxSpdKp; lia).
  split; [exact H|].
  exact (proj2 (proj2 (read_request_payload idxSpdKp H))).
Defined.

Lemma digitVal_nonneg (c d : Z) : digitVal c = Some d -> 0 <= d.
Proof.
  unfold digitVal. destruct ((48 <=? c) && (c <=? 57)) eqn:H1.
  - intros [= <-]. lia.
  - destruct ((97 <=? Z.lor c 32) && (Z.lor c 32 <=? 122)) eqn:H2;
      [|discriminate]. intros [= <-]. lia.
Qed.

Lemma hexNumber_ge (digits : list Z) :
  forall acc, 0 <= acc -> Forall (fun c => isHexDigit c = true) digits ->
  acc <= hexNumber acc digits.
Proof.
  unfold hexNumber.
  induction digits as [|c digits IH]; intros acc Hacc Hall; cbn [foldl].
  - lia.
  - apply Forall_cons in Hall as [Hc Hall]. unfold isHexDigit in Hc.
    destruct (digitVal c) as [d|] eqn:Hd; [|discriminate].
    pose proof (digitVal_nonneg c d Hd). cbn [from_option id].
    specialize (IH (16 * acc + d) ltac:(lia) Hall). lia.
Qed.

(** The digit loop on hex digits only: the value, capped at 255. *)
Lemma parseUintLoop_hex (digits : list Z) :
  forall n, 0 <= n <= 255 -> Forall (fun c => isHexDigit c = true) digits ->
  fst (parseUintLoop 16 ((2 ^ 64 - 1) / 16 + 1) (2 ^ 8 - 1) digits n)
  = Z.min (hexNumber n digits) 255.
Proof.
  induction digits as [|c digits IH]; intros n Hn Hall.
  - unfold hexNumber. cbn [parseUintLoop fst foldl]. lia.
  - pose proof Hall as Hall'. apply Forall_cons in Hall as [Hc Hall].
    unfold isHexDigit in Hc. cbn [parseUintLoop].
    destruct (digitVal c) as [d|] eqn:Hd; [|discriminate].
    pose proof (digitVal_nonneg c d Hd) as Hd0. apply Z.ltb_lt in Hc.
    destruct (Z.leb_spec 16 d) as [|_]; [lia|].
    destruct (Z.leb_spec ((2 ^ 64 - 1) / 16 + 1) n) as [Hcut|_].
    { change ((2 ^ 64 - 1) / 16 + 1) with (2 ^ 60) in Hcut. lia. }
    rewrite (Z.mod_small (n * 16)) by lia.
    rewrite (Z.mod_small (n * 16 + d)) by lia.
    assert (Hstep : hexNumber n (c :: digits) = hexNumber (16 * n + d) digits).
    { unfold hexNumber. cbn [foldl]. rewrite Hd. reflexivity. }
    rewrite Hstep.
    destruct (Z.ltb_spec (n * 16 + d) (n * 16)) as [|_]; [lia|].
    change (2 ^ 8 - 1) with 255.
    destruct (Z.ltb_spec 255 (n * 16 + d)) as [Hbig|Hsmall]; cbn [orb fst].
    + pose proof (hexNumber_ge digits (16 * n + d) ltac:(lia) Hall). lia.
    + replace (n * 16 + d) with (16 * n + d) by lia.
      apply IH; [lia | exact Hall].
Qed.

(** X10. A non-empty token made of hex digits only, of any length and in
    either letter case, reads as the number it writes when that is at most
    255, and as 255 when it is larger. *)
Theorem parseHexByte_saturates (s : string) :
  s <> EmptyString ->
  Forall (fun c => isHexDigit c = true) (bytes_of_string s) ->
  parseHexByte s = Z.min (hexNumber 0 (bytes_of_string s)) 255.
Proof.
  intros Hne Hall. unfold parseHexByte, ParseUint_16_8.
  destruct s as [|c s]; [contradiction|]. cbn [bytes_of_string] in *.
  rewrite parseUintLoop_hex by (try lia; exact Hall).
  unfold u8. apply Z.mod_small.
  pose proof (hexNumber_ge _ 0 ltac:(lia) Hall). lia.
Qed.

Lemma parseHexByte_saturates_witness :
  parseHexByte "1aB" = 255 /\ parseHexByte "0000c8" = 200.
Proof.
  split.
  - refine (eq_trans (parseHexByte_saturates "1aB" _ _) _);
      [discriminate | repeat constructor | reflexivity].
  - refine (eq_trans (parseHexByte_saturates "0000c8" _ _) _);
      [discriminate | repeat constructor | reflexivity].
Defined.

Lemma parseUintLoop_bad_digit (pre rest : list Z) (c : Z) :
  forall n, 0 <= n <= 255 -> Forall (fun x => isHexDigit x = true) pre ->
  isHexDigit c = false ->
  fst (parseUintLoop 16 ((2 ^ 64 - 1) / 16 + 1) (2 ^ 8 - 1) (pre ++ c :: rest) n)
  = if hexNumber n pre <=? 255 then 0 else 255.
Proof.
  induction pre as [|x pre IH]; intros n Hn Hall Hc.
  - unfold hexNumber. cbn [app parseUintLoop foldl].
    destruct (Z.leb_spec n 255); [|lia].
    unfold isHexDigit in Hc. destruct (digitVal c) as [d|]; [|reflexivity].
    apply Z.ltb_ge in Hc. destruct (Z.leb_spec 16 d); [reflexivity | lia].
  - apply Forall_cons in Hall as [Hx Hall]. unfold isHexDigit in Hx.
    cbn [app parseUintLoop].
    destruct (digitVal x) as [d|] eqn:Hd; [|discriminate].
    pose proof (digitVal_nonneg x d Hd) as Hd0. apply Z.ltb_lt in Hx.
    destruct (Z.leb_spec 16 d) as [|_]; [lia|].
    destruct (Z.leb_spec ((2 ^ 64 - 1) / 16 + 1) n) as [Hcut|_].
    { change ((2 ^ 64 - 1) / 16 + 1) with (2 ^ 60) in Hcut. lia. }
    rewrite (Z.mod_small (n * 16)) by lia.
    rewrite (Z.mod_small (n * 16 + d)) by lia.
    assert (Hstep : hexNumber n (x :: pre) = hexNumber (16 * n + d) pre).
    { unfold hexNumber. cbn [foldl]. rewrite Hd. reflexivity. }
    rewrite Hstep.
    destruct (Z.ltb_spec (n * 16 + d) (n * 16)) as [|_]; [lia|].
    change (2 ^ 8 - 1) with 255.
    destruct (Z.ltb_spec 255 (n * 16 + d)) as [Hbig|Hsmall]; cbn [orb fst].
    + pose proof (hexNumber_ge pre (16 * n + d) ltac:(lia) Hall).
      destruct (Z.leb_spec (hexNumber (16 * n + d) pre) 255); [lia | reflexivity].
    + replace (n * 16 + d) with (16 * n + d) by lia.
      apply IH; [lia | exact Hall | exact Hc].
Qed.

(** X11. A token with a byte that is not a hex digit is not refused: it
    reads as 0 when the digits before that byte write a number of at most
    255 (in particular when the bad byte comes first), and as 255
    otherwise. *)
Theorem parseHexByte_bad_digit (s : string) (pre rest : list Z) (c : Z) :
  bytes_of_string s = pre ++ c :: rest ->
  Forall (fun x => isHexDigit x = true) pre ->
  isHexDigit c = false ->
  parseHexByte s = if hexNumber 0 pre <=? 255 then 0 else 255.
Proof.
  intros Hs Hall Hc. unfold parseHexByte, ParseUint_16_8. rewrite Hs.
  pose proof (parseUintLoop_bad_digit pre rest c 0 ltac:(lia) Hall Hc) as H.
  destruct (pre ++ c :: rest) as [|b bs] eqn:Hbs.
  { destruct pre; discriminate. }
  rewrite H. destruct (hexNumber 0 pre <=? 255); reflexivity.
Qed.

Lemma parseHexByte_bad_digit_witness :
  parseHexByte "7g" = 0 /\ parseHexByte "1A0x" = 255.
Proof.
  split.
  - refine (eq_trans (parseHexByte_bad_digit "7g" [55] [] 103 eq_refl _ eq_refl) _);
      [repeat constructor | reflexivity].
  - refine (eq_trans (parseHexByte_bad_digit "1A0x" [49; 65; 48] [] 120
                        eq_refl _ eq_refl) _);
      [repeat constructor | reflexivity].
Defined.

Lemma byte1_read_id (x y : Z) :
  is_u8 x -> is_u8 y ->
  Z.land (Z.shiftr (Z.lor (Z.lor (u32 (Z.shiftl typeReadSingle 24))
                                 (u32 (Z.shiftl x 8))) y) 8) 0xFF = x.
Proof.
  intros Hx Hy. apply Z.bits_inj'. intros n Hn.
  rewrite mask_bits, Z.shiftr_spec, !Z.lor_spec, !u32_bits, !Z.shiftl_spec by lia.
  assert (Hhigh : forall v k, is_u8 v -> 8 <= k -> Z.testbit v k = false).
  { intros v k Hv Hk. rewrite <- (Z.mod_small v (2 ^ 8)) by exact Hv.
    apply Z.mod_pow2_bits_high. lia. }
  destruct (Z.ltb_spec n 8) as [H8|H8]; cbn [andb].
  - rewrite (Hhigh y (n + 8)) by (exact Hy || lia).
    rewrite (Z.testbit_neg_r _ (n + 8 - 24)) by lia.
    replace (n + 8 - 8) with n by lia.
    destruct (Z.ltb_spec (n + 8) 32); [|lia].
    rewrite andb_false_r, orb_false_r. reflexivity.
  - symmetry. apply Hhigh; assumption.
Qed.

(** X12. For a fixed 8-bit host id, different 8-bit motor ids have different
    read-request identifiers and different read-response identifiers: the
    identifier a round listens on belongs to one motor only. *)
Theorem read_ids_injective (h m1 m2 : Z) :
  is_u8 h -> is_u8 m1 -> is_u8 m2 ->
  (buildReadRespID h m1 = buildReadRespID h m2 -> m1 = m2)
  /\ (buildReadReqID h m1 = buildReadReqID h m2 -> m1 = m2).
Proof.
  intros Hh H1 H2. split; intros Heq.
  - unfold buildReadRespID in Heq.
    apply (f_equal (fun id => Z.land (Z.shiftr id 8) 0xFF)) in Heq.
    rewrite !byte1_read_id in Heq by assumption. exact Heq.
  - apply (f_equal lowByte) in Heq. unfold buildReadReqID in Heq.
    rewrite !lowByte_read_id in Heq by assumption. exact Heq.
Qed.

Lemma read_ids_injective_witness :
  buildReadRespID defaultHostID 61 <> buildReadRespID defaultHostID 62.
Proof.
  intros Heq.
  assert (Hh : is_u8 defaultHostID) by (unfold is_u8, defaultHostID; lia).
  assert (H1 : is_u8 61) by (unfold is_u8; lia).
  assert (H2 : is_u8 62) by (unfold is_u8; lia).
  pose proof (proj1 (read_ids_injective defaultHostID 61 62 Hh H1 H2) Heq).
  lia.
Defined.

(** * Further properties of the feedback path *)

Lemma orElse_assoc {A : Type} (a b c : option A) :
  orElse (orElse a b) c = orElse a (orElse b c).
Proof. destruct a; reflexivity. Qed.

Lemma orElse_Some_absorb {A : Type} (a b : option A) :
  is_Some a -> orElse a b = a.
Proof. intros [x ->]. reflexivity. Qed.

Lemma firstValue_app (idx : Z) (a c : list (list string)) :
  firstValue idx (a ++ c) = orElse (firstValue idx a) (firstValue idx c).
Proof.
  induction a as [|hex a IH]; [reflexivity|]. cbn [app firstValue].
  destruct (decode hex) as [[i v]|]; [|exact IH].
  destruct (i =? idx); [reflexivity | exact IH].
Qed.

Lemma takeOnce_spec (idx want : Z) (v : float64) (slot : option float64)
    (seenSet : gset Z) :
  (want ∈ seenSet <-> is_Some slot) ->
  let '(slot', seen') := takeOnce idx want v slot seenSet in
  slot' = orElse slot (if idx =? want then Some v else None)
  /\ (want ∈ seen' <-> is_Some slot')
  /\ (forall w, w <> want -> w ∈ seen' <-> w ∈ seenSet).
Proof.
  intros Hag. unfold takeOnce.
  destruct (idx =? want) eqn:Hidx; cbn [andb].
  - destruct (bool_decide (want ∈ seenSet)) eqn:Hin; cbn [negb].
    + apply bool_decide_eq_true in Hin. apply Hag in Hin as [x ->].
      split; [reflexivity|]. split; [|tauto]. rewrite Hag. reflexivity.
    + apply bool_decide_eq_false in Hin.
      assert (slot = None) as ->.
      { destruct slot; [|reflexivity]. exfalso. apply Hin, Hag. eauto. }
      split; [reflexivity|]. split.
      * split; [eauto|]. intros _. apply elem_of_union_l, elem_of_singleton.
        reflexivity.
      * intros w Hw. rewrite elem_of_union, elem_of_singleton. tauto.
  - split; [destruct slot; reflexivity|]. split; [exact Hag | tauto].
Qed.

(** One message of [listenMotorParams]: each slot keeps its value or takes
    the message's, and the function returns when all three are filled. *)
Lemma observeParam_spec (s : paramState) (hex : list string) :
  seenAgrees s ->
  let '(s', done) := observeParam s hex in
  seenAgrees s'
  /\ locKp s' = orElse (locKp s) (firstValue idxLocKp [hex])
  /\ spdKp s' = orElse (spdKp s) (firstValue idxSpdKp [hex])
  /\ spdKi s' = orElse (spdKi s) (firstValue idxSpdKi [hex])
  /\ (done = true -> is_Some (locKp s') /\ is_Some (spdKp s')
                     /\ is_Some (spdKi s')).
Proof.
  intros (H1 & H2 & H3). unfold observeParam. cbn [firstValue].
  destruct (decode hex) as [[idx v]|].
  2:{ repeat split; try tauto; try (destruct s as [[] [] [] ?]; reflexivity);
      discriminate. }
  pose proof (takeOnce_spec idx idxLocKp (float64_of_float32 v) (locKp s)
                (seenIdx s) H1) as T1.
  destruct (takeOnce idx idxLocKp (float64_of_float32 v) (locKp s) (seenIdx s))
    as [k1 seen1]. destruct T1 as (E1 & A1 & O1).
  assert (H2' : idxSpdKp ∈ seen1 <-> is_Some (spdKp s)).
  { rewrite O1 by (unfold idxSpdKp, idxLocKp; lia). exact H2. }
  pose proof (takeOnce_spec idx idxSpdKp (float64_of_float32 v) (spdKp s)
                seen1 H2') as T2.
  destruct (takeOnce idx idxSpdKp (float64_of_float32 v) (spdKp s) seen1)
    as [k2 seen2]. destruct T2 as (E2 & A2 & O2).
  assert (H3' : idxSpdKi ∈ seen2 <-> is_Some (spdKi s)).
  { rewrite O2, O1 by (unfold idxSpdKi, idxSpdKp, idxLocKp; lia). exact H3. }
  pose proof (takeOnce_spec idx idxSpdKi (float64_of_float32 v) (spdKi s)
                seen2 H3') as T3.
  destruct (takeOnce idx idxSpdKi (float64_of_float32 v) (spdKi s) seen2)
    as [k3 seen3]. destruct T3 as (E3 & A3 & O3).
  cbn [locKp spdKp spdKi seenIdx]. split; [|split; [|split; [|split]]].
  - unfold seenAgrees. cbn [locKp spdKp spdKi seenIdx]. split; [|split].
    + rewrite O3, O2 by (unfold idxSpdKi, idxSpdKp, idxLocKp; lia). exact A1.
    + rewrite O3 by (unfold idxSpdKi, idxSpdKp; lia). exact A2.
    + exact A3.
  - rewrite E1. destruct (idx =? idxLocKp); reflexivity.
  - rewrite E2. destruct (idx =? idxSpdKp); reflexivity.
  - rewrite E3. destruct (idx =? idxSpdKi); reflexivity.
  - intros Hdone. apply andb_true_iff in Hdone as [Hdone Hd3].
    apply andb_true_iff in Hdone as [Hd1 Hd2].
    apply bool_decide_eq_true in Hd1, Hd2, Hd3. auto.
Qed.

Lemma orElse_None_r {A : Type} (a : option A) : orElse a None = a.
Proof. destruct a; reflexivity. Qed.

Lemma slot_filled_early (idx : Z) (a x : option float64) (hex : list string)
    (more : list (list string)) :
  x = orElse a (firstValue idx [hex]) -> is_Some x ->
  x = orElse a (firstValue idx (hex :: more)).
Proof.
  intros Hx Hsome. change (hex :: more) with ([hex] ++ more).
  rewrite firstValue_app, <- orElse_assoc, <- Hx.
  symmetry. apply orElse_Some_absorb, Hsome.
Qed.

Lemma slot_filled_later (idx : Z) (a x1 x : option float64)
    (hex : list string) (more : list (list string)) :
  x1 = orElse a (firstValue idx [hex]) ->
  x = orElse x1 (firstValue idx more) ->
  x = orElse a (firstValue idx (hex :: more)).
Proof.
  intros H1 Hx. change (hex :: more) with ([hex] ++ more).
  rewrite firstValue_app, <- orElse_assoc, <- H1. exact Hx.
Qed.

Lemma observeParams_spec (messages : list (list string)) :
  forall s, seenAgrees s ->
  let '(s', done) := observeParams s messages in
  seenAgrees s'
  /\ forall extra, done = true \/ extra = [] ->
       locKp s' = orElse (locKp s) (firstValue idxLocKp (messages ++ extra))
       /\ spdKp s' = orElse (spdKp s) (firstValue idxSpdKp (messages ++ extra))
       /\ spdKi s' = orElse (spdKi s) (firstValue idxSpdKi (messages ++ extra)).
Proof.
  induction messages as [|hex rest IH]; intros s Hag; cbn [observeParams].
  - split; [exact Hag|]. intros extra [Hd | ->]; [discriminate|].
    cbn [app firstValue]. rewrite !orElse_None_r. auto.
  - pose proof (observeParam_spec s hex Hag) as Hstep.
    destruct (observeParam s hex) as [s1 [|]].
    + destruct Hstep as (Hag1 & E1 & E2 & E3 & Hfull).
      destruct (Hfull eq_refl) as (F1 & F2 & F3).
      split; [exact Hag1|]. intros extra _. cbn [app].
      split; [|split]; apply slot_filled_early; assumption.
    + destruct Hstep as (Hag1 & E1 & E2 & E3 & _).
      specialize (IH s1 Hag1).
      destruct (observeParams s1 rest) as [s' done].
      destruct IH as [Hag' Hslots]. split; [exact Hag'|].
      intros extra Hextra. destruct (Hslots extra Hextra) as (G1 & G2 & G3).
      cbn [app]. split; [|split].
      * exact (slot_filled_later _ _ _ _ _ _ E1 G1).
      * exact (slot_filled_later _ _ _ _ _ _ E2 G2).
      * exact (slot_filled_later _ _ _ _ _ _ E3 G3).
Qed.

Lemma paramLoop_spec (polls : list Poll) :
  forall s, seenAgrees s ->
  locKp (paramLoop s polls)
  = orElse (locKp s) (firstValue idxLocKp (pending polls))
  /\ spdKp (paramLoop s polls)
     = orElse (spdKp s) (firstValue idxSpdKp (pending polls))
  /\ spdKi (paramLoop s polls)
     = orElse (spdKi s) (firstValue idxSpdKi (pending polls)).
Proof.
  induction polls as [|p polls IH]; intros s Hag.
  - cbn [paramLoop pending firstValue]. rewrite !orElse_None_r. auto.
  - destruct p as [| |messages]; cbn [paramLoop pending]; [apply IH, Hag ..|].
    pose proof (observeParams_spec messages s Hag) as Hobs.
    destruct (observeParams s messages) as [s1 [|]]; destruct Hobs as [Hag1 Hslots].
    + apply Hslots. left. reflexivity.
    + destruct (Hslots [] (or_intror eq_refl)) as (E1 & E2 & E3).
      rewrite app_nil_r in E1, E2, E3.
      destruct (IH s1 Hag1) as (G1 & G2 & G3).
      rewrite !firstValue_app, <- !orElse_assoc, <- E1, <- E2, <- E3. auto.
Qed.

(** X13. [listenMotorParams] returns, for each of the three gain
    registers, the value of the first message of that register among the
    messages polled before the deadline, and nothing for a register that no
    message carries: later values of a register never replace the first,
    and leaving early once all three are known changes nothing. *)
Theorem listenMotorParams_first_observation (polls : list Poll) :
  listenMotorParams polls
  = (firstValue idxLocKp (pending polls),
     firstValue idxSpdKp (pending polls),
     firstValue idxSpdKi (pending polls)).
Proof.
  unfold listenMotorParams.
  assert (Hinit : seenAgrees (mkParamState None None None ∅)).
  { unfold seenAgrees. cbn [locKp spdKp spdKi seenIdx].
    repeat split; intros H;
      solve [ exfalso; exact (not_elem_of_empty (C := gset Z) _ H)
            | destruct H; discriminate ]. }
  destruct (paramLoop_spec polls _ Hinit) as (E1 & E2 & E3).
  rewrite E1, E2, E3. reflexivity.
Qed.

(** Two values of the position gain on the bus: the first is kept. *)
Example listenMotorParams_keeps_first :
  listenMotorParams
    [PollMessages [hexTokens (encode idxLocKp (Float32frombits 0x41200000));
                   hexTokens (encode idxSpdKi (Float32frombits 0x3C23D70A))];
     PollFailed;
     PollMessages [hexTokens (encode idxLocKp (Float32frombits 0x41A00000))]]
  = (Some (float64_of_float32 (Float32frombits 0x41200000)), None,
     Some (float64_of_float32 (Float32frombits 0x3C23D70A))).
Proof. vm_compute. reflexivity. Qed.

Lemma rawStream_cons (hex : list string) (rest : list (list string)) :
  rawStream (hex :: rest) = option_list (rawPattern hex) ++ rawStream rest.
Proof. unfold rawStream. simpl. destruct (rawPattern hex); reflexivity. Qed.

Lemma rawStream_app (a c : list (list string)) :
  rawStream (a ++ c) = rawStream a ++ rawStream c.
Proof. apply omap_app. Qed.

Lemma pending_app (a c : list Poll) : pending (a ++ c) = pending a ++ pending c.
Proof.
  induction a as [|p a IH]; [reflexivity|].
  destruct p; cbn [app pending]; rewrite IH; [reflexivity ..|].
  apply app_assoc.
Qed.

(** The message loop follows the first-repeat rule on the raw patterns. *)
Lemma observeAll_settleRaw (messages : list (list string)) :
  forall pre s, Tracks pre s ->
  stepValue (fst (observeAll s messages))
  = (fun w => float64_of_float32 (Float32frombits w))
      <$> settleRaw pre (rawStream messages).
Proof.
  induction messages as [|hex rest IH]; intros pre s HT; [reflexivity|].
  pose proof (observe_tracked pre s hex HT) as Hstep.
  cbn [observeAll]. rewrite rawStream_cons.
  destruct (observe s hex) as [s'|site v].
  - rewrite (IH _ _ Hstep).
    destruct (rawPattern hex) as [u|]; simpl option_list; cbn [app].
    + cbn [settleRaw]. destruct Hstep as (Hnd & _).
      apply NoDup_app in Hnd as (_ & Hdisj & _).
      rewrite bool_decide_eq_false_2; [reflexivity|].
      intros Hin. apply (Hdisj u Hin), list_elem_of_here.
    + rewrite app_nil_r. reflexivity.
  - destruct Hstep as (_ & u & w & Hraw & Hu & Hl & Hv).
    rewrite Hraw. simpl option_list. cbn [app settleRaw fst stepValue].
    rewrite bool_decide_eq_true_2 by exact Hu. rewrite Hl, Hv. reflexivity.
Qed.

Lemma listenOneMotorRound_settleRaw (polls : list Poll) :
  listenOneMotorRound polls
  = match settleRaw [] (rawStream (pending polls)) with
    | Some w => (true, float64_of_float32 (Float32frombits w))
    | None => (false, float64_of_float32 f32_zero)
    end.
Proof.
  unfold listenOneMotorRound. rewrite listenLoop_pending.
  pose proof (observeAll_settleRaw (pending polls) [] initialState Tracks_initial)
    as H.
  destruct (observeAll initialState (pending polls)) as [[s'|site v] unread];
    cbn [fst stepValue] in *;
    destruct (settleRaw [] (rawStream (pending polls))); simpl in H;
    try discriminate; [reflexivity|]. injection H as ->. reflexivity.
Qed.

(** X14. The outcome of a listening round depends on the sequence of
    target-angle bit patterns only: how the messages are grouped into polls,
    failed or unparsable polls, messages of other registers and messages
    shorter than eight tokens make no difference. *)
Theorem listen_depends_on_patterns_only (polls1 polls2 : list Poll) :
  rawStream (pending polls1) = rawStream (pending polls2) ->
  listenOneMotorRound polls1 = listenOneMotorRound polls2.
Proof.
  intros H. rewrite !listenOneMotorRound_settleRaw, H. reflexivity.
Qed.

Lemma listen_depends_on_patterns_only_witness :
  listenOneMotorRound
    [PollMessages [locRefMessage 1; locRefMessage 2; locRefMessage 2]]
  = listenOneMotorRound
      [PollFailed;
       PollMessages [locRefMessage 1;
                     hexTokens (encode idxLocKp (Float32frombits 9))];
       PollUnparsable;
       PollMessages [["16"; "70"; "00"]%string; locRefMessage 2];
       PollMessages [locRefMessage 2]].
Proof.
  apply listen_depends_on_patterns_only. vm_compute. reflexivity.
Defined.

Lemma settleRaw_extend (raw more : list Z) :
  forall pre w, settleRaw pre raw = Some w -> settleRaw pre (raw ++ more) = Some w.
Proof.
  induction raw as [|u raw IH]; intros pre w H; [discriminate|].
  cbn [app settleRaw] in *.
  destruct (bool_decide (u ∈ pre)); [exact H | apply IH, H].
Qed.

(** X15. Once a round has settled on the polls answered so far, further
    polls do not change what it returns: a longer time budget never turns a
    settled value into another one. *)
Theorem settled_value_is_stable (polls more : list Poll) (v : float64) :
  listenOneMotorRound polls = (true, v) ->
  listenOneMotorRound (polls ++ more) = (true, v).
Proof.
  rewrite !listenOneMotorRound_settleRaw, pending_app, rawStream_app.
  destruct (settleRaw [] (rawStream (pending polls))) as [w|] eqn:Hs;
    [|discriminate].
  intros H. rewrite (settleRaw_extend _ _ _ _ Hs). exact H.
Qed.

Lemma settled_value_is_stable_witness :
  listenOneMotorRound
    ([PollMessages [locRefMessage 5; locRefMessage 5]]
     ++ [PollMessages [locRefMessage 6; locRefMessage 6]])
  = (true, float64_of_float32 (Float32frombits 5)).
Proof.
  apply settled_value_is_stable. vm_compute. reflexivity.
Defined.

Lemma concat_singletons {A B : Type} (f : A -> B) (l : list A) :
  concat (map (fun x => [f x]) l) = map f l.
Proof. induction l as [|x l IH]; simpl; [|rewrite IH]; reflexivity. Qed.

Lemma sendReadForMotor_frames (tx : Transport) (iface : string) (m : Z)
    (indices : list Z) (log : list CANMessage) :
  (forall l c, tx l c <> PostFailed) ->
  sendReadForMotor tx iface m indices log
  = (None, log ++ map (readRequest iface m) indices).
Proof.
  intros Htx. unfold sendReadForMotor.
  rewrite (forEach_all_ok _ (fun idx => [readRequest iface m idx])).
  - rewrite concat_singletons. reflexivity.
  - intros idx l _. destruct (tx l (readRequest iface m idx)) eqn:Hpost.
    + exfalso. exact (Htx _ _ Hpost).
    + reflexivity.
Qed.

(** X16. When no post fails, [QueryCurrentAngles] hands over four read
    requests per motor, for the target angle and the three gains in this
    order, motor after motor, whatever status the bridge answers with and
    whatever the listening rounds yield afterwards. *)
Theorem query_sends_four_requests_per_motor (tx : Transport) (iface : string)
    (motorIDs : list Z) (paramPolls : list Poll)
    (roundPolls : nat -> list Poll) (log : list CANMessage) :
  (forall l c, tx l c <> PostFailed) ->
  snd (QueryCurrentAngles tx iface motorIDs paramPolls roundPolls log)
  = log ++ concat (map (fun m => map (readRequest iface m)
                                   [idxLocRef; idxLocKp; idxSpdKp; idxSpdKi])
                       motorIDs).
Proof.
  intros Htx. unfold QueryCurrentAngles, bind.
  rewrite (forEach_all_ok _
             (fun m => map (readRequest iface m)
                         [idxLocRef; idxLocKp; idxSpdKp; idxSpdKi]))
    by (intros m l _; apply sendReadForMotor_frames, Htx).
  reflexivity.
Qed.

Lemma query_sends_four_requests_per_motor_witness :
  map (fun c => (ID c, take 2 (Data c)))
      (snd (QueryCurrentAngles (fun _ _ => PostStatus 500) "can0" [61; 62] []
              twoOfSeven []))
  = [(0x1100FD3D, [0x16; 0x70]); (0x1100FD3D, [0x1E; 0x70]);
     (0x1100FD3D, [0x1F; 0x70]); (0x1100FD3D, [0x20; 0x70]);
     (0x1100FD3E, [0x16; 0x70]); (0x1100FD3E, [0x1E; 0x70]);
     (0x1100FD3E, [0x1F; 0x70]); (0x1100FD3E, [0x20; 0x70])].
Proof.
  rewrite (query_sends_four_requests_per_motor (fun _ _ => PostStatus 500)
             "can0" [61; 62] [] twoOfSeven []) by discriminate.
  reflexivity.
Defined.

(** * Further properties of the sequence transforms *)

(** X17. The copy loop of the merge handler returns a sequence of two or
    more way-points without its last way-point and back to front; a
    sequence of one way-point, or none, is returned as it is. *)
Theorem reverseWithoutLast_snoc (l : list JointAngleSet) (x : JointAngleSet) :
  reverseWithoutLast (l ++ [x])
  = match l with
    | [] => [x]
    | _ => reverse l
    end
  /\ reverseWithoutLast [] = [].
Proof.
  split; [|reflexivity]. rewrite reverseWithoutLast_spec.
  rewrite length_app. cbn [length]. destruct l as [|y l].
  - reflexivity.
  - rewrite bool_decide_eq_true_2 by (cbn [length]; lia).
    replace (length (y :: l) + 1 - 1)%nat with (length (y :: l)) by lia.
    rewrite take_app_length. reflexivity.
Qed.

(** X18. Prepending a way-point to a sequence of two or more way-points and
    mirroring the result gives the mirror of the sequence followed by that
    way-point: the descending sequence derived from an ascending merge is
    the directly merged descending sequence with the initial way-point at
    its end. *)
Theorem mirror_of_prepended (init : JointAngleSet) (l : list JointAngleSet) :
  (2 <= length l)%nat ->
  reverseWithoutLast (init :: l) = reverseWithoutLast l ++ [init].
Proof.
  intros Hlen. rewrite !reverseWithoutLast_spec.
  rewrite !bool_decide_eq_true_2 by (cbn [length]; lia).
  cbn [length].
  replace (S (length l) - 1)%nat with (S (length l - 1)) by lia.
  cbn [take]. apply reverse_cons.
Qed.

Lemma mirror_of_prepended_witness :
  reverseWithoutLast
    (leftInitAngle "old"
     :: [wayPoint "p1" "61" 1; wayPoint "p2" "61" 2; wayPoint "p3" "61" 3])
  = reverseWithoutLast
      [wayPoint "p1" "61" 1; wayPoint "p2" "61" 2; wayPoint "p3" "61" 3]
    ++ [leftInitAngle "old"].
Proof.
  apply mirror_of_prepended. cbn [length]. lia.
Defined.

(** X19. A merge request that names a sequence the server does not hold is
    answered with the not-found failure, and no file is written for it; and
    in every case the answer carries sequences exactly when it reports
    success: a failure answer carries none, a success answer always carries
    the merged pair. *)
Theorem merge_answer_carries_data_iff_success (canWrite : string -> bool)
    (config : list JointSequence) (req : MergeRequest) (disk : Disk) :
  (findSequence (Sequence1Name req) config None = None
   \/ findSequence (Sequence2Name req) config None = None ->
   mergeSequencesHandler canWrite config req disk
   = (mkControlResponse false MsgNotFound NoData, disk))
  /\ (Success (fst (mergeSequencesHandler canWrite config req disk)) = false
      <-> RespData (fst (mergeSequencesHandler canWrite config req disk))
          = NoData)
  /\ (Success (fst (mergeSequencesHandler canWrite config req disk)) = true
      -> 2 <= length (respSequences
                        (fst (mergeSequencesHandler canWrite config req disk))))%nat.
Proof.
  unfold mergeSequencesHandler. split; [|split].
  - intros [H | H]; rewrite H;
      [|destruct (findSequence (Sequence1Name req) config None)]; reflexivity.
  - destruct (findSequence (Sequence1Name req) config None) as [s1|];
      [|split; reflexivity].
    destruct (findSequence (Sequence2Name req) config None) as [s2|];
      [|split; reflexivity].
    cbv zeta.
    destruct (Contains (ToLower (MergedName req)) "up");
      [|destruct (Contains (ToLower (MergedName req)) "down")];
      repeat match goal with
        | |- context [saveMergedSequence ?w ?n ?l ?d] =>
            destruct (saveMergedSequence w n l d) as [[e|] ?]
        end;
      cbn [fst Success RespData]; split; (reflexivity || discriminate).
  - destruct (findSequence (Sequence1Name req) config None) as [s1|];
      [|discriminate].
    destruct (findSequence (Sequence2Name req) config None) as [s2|];
      [|discriminate].
    cbv zeta.
    destruct (Contains (ToLower (MergedName req)) "up");
      [|destruct (Contains (ToLower (MergedName req)) "down")];
      repeat match goal with
        | |- context [saveMergedSequence ?w ?n ?l ?d] =>
            destruct (saveMergedSequence w n l d) as [[e|] ?]
        end;
      unfold respSequences; cbn [fst Success RespData app length];
      first [discriminate | intros _; lia].
Qed.

Lemma merge_answer_carries_data_iff_success_witness :
  mergeSequencesHandler alwaysWritable exampleConfig
    (mkMergeRequest "rec_left" "rec_middle" "UP_to_rest" "") ∅
  = (mkControlResponse false MsgNotFound NoData, ∅).
Proof.
  exact (proj1 (merge_answer_carries_data_iff_success alwaysWritable
                  exampleConfig
                  (mkMergeRequest "rec_left" "rec_middle" "UP_to_rest" "") ∅)
           (or_intror eq_refl)).
Defined.

(** The second file is the derived one: when it cannot be written although
    the first was, the merge still reports success, with the ascending pair
    only. *)
Example merge_down_file_refused :
  let resp :=
    fst (mergeSequencesHandler
           (fun path => negb (bool_decide (path = "DOWN_to_rest.json"%string)))
           exampleConfig exampleRequest ∅) in
  Success resp = true
  /\ Message resp = MsgUpSavedDownFailed "UP_to_rest" ErrWriteFile
  /\ length (respSequences resp) = 2%nat.
Proof. vm_compute. repeat split. Qed.

Lemma resolveArmModel_not_empty (req : MergeRequest) (s : JointSequence) :
  resolveArmModel req s <> ""%string.
Proof.
  unfold resolveArmModel.
  destruct (bool_decide (reqArmModel req = ""%string)) eqn:H1.
  - destruct (bool_decide (ArmModel s = ""%string)) eqn:H2; [discriminate|].
    apply bool_decide_eq_false in H2. exact H2.
  - rewrite H1. apply bool_decide_eq_false in H1. exact H1.
Qed.

(** X20. Every sequence in the answer of the merge handler, of either side
    and of the ascending and the descending pair alike, carries one and the
    same generation tag: the request's when it has one, else the tag of the
    first sequence, else "old". The tag is never empty, and the second
    sequence's own tag is not looked at. *)
Theorem merge_tags_every_sequence (canWrite : string -> bool)
    (config : list JointSequence) (req : MergeRequest) (disk : Disk)
    (seq1 : JointSequence) :
  findSequence (Sequence1Name req) config None = Some seq1 ->
  let tag :=
    if bool_decide (reqArmModel req <> ""%string) then reqArmModel req
    else if bool_decide (ArmModel seq1 <> ""%string) then ArmModel seq1
    else "old"%string in
  tag <> ""%string
  /\ Forall (fun s => ArmModel s = tag)
       (respSequences (fst (mergeSequencesHandler canWrite config req disk))).
Proof.
  intros Hf1 tag.
  assert (Htag : tag = resolveArmModel req seq1).
  { unfold tag, resolveArmModel.
    destruct (decide (reqArmModel req = ""%string)) as [E1|E1].
    - rewrite (bool_decide_eq_false_2 (reqArmModel req <> ""%string)) by tauto.
      rewrite (bool_decide_eq_true_2 _ E1).
      destruct (decide (ArmModel seq1 = ""%string)) as [E2|E2].
      + rewrite (bool_decide_eq_false_2 (ArmModel seq1 <> ""%string)) by tauto.
        rewrite (bool_decide_eq_true_2 _ E2). reflexivity.
      + rewrite (bool_decide_eq_true_2 _ E2), (bool_decide_eq_false_2 _ E2).
        reflexivity.
    - rewrite (bool_decide_eq_true_2 _ E1), (bool_decide_eq_false_2 _ E1).
      rewrite (bool_decide_eq_false_2 _ E1). reflexivity. }
  rewrite Htag. split; [apply resolveArmModel_not_empty|].
  unfold mergeSequencesHandler. rewrite Hf1.
  destruct (findSequence (Sequence2Name req) config None) as [s2|];
    [|constructor].
  cbv zeta.
  destruct (Contains (ToLower (MergedName req)) "up");
    [|destruct (Contains (ToLower (MergedName req)) "down")];
    repeat match goal with
      | |- context [saveMergedSequence ?w ?n ?l ?d] =>
          destruct (saveMergedSequence w n l d) as [[e|] ?]
      end;
    unfold respSequences; cbn [fst RespData app];
    repeat constructor.
Qed.

Lemma merge_tags_every_sequence_witness :
  Forall (fun s => ArmModel s = "old"%string)
    (respSequences (fst (mergeSequencesHandler alwaysWritable exampleConfig
                           (mkMergeRequest "rec_left" "rec_right" "lift" "")
                           ∅))).
Proof.
  exact (proj2 (merge_tags_every_sequence alwaysWritable exampleConfig
                  (mkMergeRequest "rec_left" "rec_right" "lift" "") ∅
                  (mkJointSequence "rec_left" "left" ""
                     [wayPoint "p1" "61" 0x3F000000;
                      wayPoint "p2" "62" 0x3F800000;
                      wayPoint "p3" "63" 0x3FC00000]) eq_refl)).
Defined.

(** X21. A merge whose name contains "down" and not "up", in any case, with
    both sequences found and the file saved, answers with the two sequences
    mirrored, each without its last way-point and back to front, under
    their own names and without a synthetic way-point, and writes exactly
    that pair to the file of the merged name. *)
Theorem direct_down_merge (canWrite : string -> bool)
    (config : list JointSequence) (req : MergeRequest) (disk : Disk)
    (seq1 seq2 : JointSequence) :
  findSequence (Sequence1Name req) config None = Some seq1 ->
  findSequence (Sequence2Name req) config None = Some seq2 ->
  Contains (ToLower (MergedName req)) "up" = false ->
  Contains (ToLower (MergedName req)) "down" = true ->
  marshalOK [seq1; seq2] = true ->
  canWrite (mergedFilePath (MergedName req)) = true ->
  let tag := resolveArmModel req seq1 in
  let pair :=
    [mkJointSequence (Name seq1) (ArmType seq1) tag
       (reverseWithoutLast (Angles seq1));
     mkJointSequence (Name seq2) (ArmType seq2) tag
       (reverseWithoutLast (Angles seq2))] in
  mergeSequencesHandler canWrite config req disk
  = (mkControlResponse true
       (MsgMerged (Sequence1Name req) (Sequence2Name req) (MergedName req))
       (DataSequences pair),
     <[mergedFilePath (MergedName req) := pair]> disk).
Proof.
  intros Hf1 Hf2 Hup Hdown Hm Hw tag pair.
  rewrite marshalOK_pair in Hm. apply andb_true_iff in Hm as [Hm1 Hm2].
  unfold mergeSequencesHandler. rewrite Hf1, Hf2, Hup, Hdown. cbv zeta.
  rewrite saveMergedSequence_ok;
    [reflexivity | | exact Hw].
  rewrite marshalOK_pair. cbn [withAngles Angles].
  rewrite !anglesFinite_reverseWithoutLast by assumption. reflexivity.
Qed.

Lemma direct_down_merge_witness :
  map (fun s => map wpName (Angles s))
      (respSequences
         (fst (mergeSequencesHandler alwaysWritable exampleConfig
                 (mkMergeRequest "rec_left" "rec_right" "Down_slow" "new")
                 ∅)))
  = [["p2"; "p1"]; ["q1"]]%string.
Proof.
  rewrite (direct_down_merge alwaysWritable exampleConfig
             (mkMergeRequest "rec_left" "rec_right" "Down_slow" "new") ∅
             (mkJointSequence "rec_left" "left" ""
                [wayPoint "p1" "61" 0x3F000000; wayPoint "p2" "62" 0x3F800000;
                 wayPoint "p3" "63" 0x3FC00000])
             (mkJointSequence "rec_right" "right" ""
                [wayPoint "q1" "51" 0x3F000000; wayPoint "q2" "52" 0x3F800000])
             eq_refl eq_refl eq_refl eq_refl eq_refl eq_refl).
  reflexivity.
Defined.

(** X22. When none of the three replacements applies to the merged name of
    an ascending merge (the token is written in another mix of cases, as in
    "uP"), the derived name is the merged name itself: the descending pair
    is written over the ascending pair, the file holds the descending pair
    only, and the answer still reports both pairs under one file name. *)
Theorem derived_name_collision (canWrite : string -> bool)
    (config : list JointSequence) (req : MergeRequest) (disk : Disk)
    (seq1 seq2 : JointSequence) :
  findSequence (Sequence1Name req) config None = Some seq1 ->
  findSequence (Sequence2Name req) config None = Some seq2 ->
  Contains (ToLower (MergedName req)) "up" = true ->
  downName (MergedName req) = MergedName req ->
  marshalOK [seq1; seq2] = true ->
  (forall path, canWrite path = true) ->
  Angles seq1 <> [] ->
  exists up down file,
    RespData (fst (mergeSequencesHandler canWrite config req disk))
    = DataUpDown up down file file
    /\ up <> down
    /\ snd (mergeSequencesHandler canWrite config req disk)
       = <[mergedFilePath (MergedName req) := down]> disk.
Proof.
  intros Hf1 Hf2 Hup Hsame Hm Hw Hne.
  rewrite marshalOK_pair in Hm. apply andb_true_iff in Hm as [Hm1 Hm2].
  set (tag := resolveArmModel req seq1).
  destruct (anglesFinite_init tag _ Hm1) as [HL _].
  destruct (anglesFinite_init tag _ Hm2) as [_ HR].
  unfold mergeSequencesHandler. rewrite Hf1, Hf2, Hup. cbv zeta. fold tag.
  rewrite Hsame.
  rewrite saveMergedSequence_ok;
    [| rewrite marshalOK_pair; cbn [withAngles Angles]; rewrite HL, HR; reflexivity
     | apply Hw].
  rewrite saveMergedSequence_ok;
    [| rewrite marshalOK_pair; cbn [withAngles Angles];
       rewrite !anglesFinite_reverseWithoutLast by assumption; reflexivity
     | apply Hw].
  cbn [fst snd RespData]. eexists _, _, _. split; [reflexivity|]. split.
  - intros Heq.
    apply (f_equal (fun l => match l with
                             | s :: _ => length (Angles s)
                             | [] => O
                             end)) in Heq.
    cbn [Angles withAngles] in Heq. rename Heq into Hangles.
    rewrite reverseWithoutLast_spec in Hangles.
    destruct (Angles seq1) as [|x l]; [contradiction|].
    rewrite bool_decide_eq_true_2 in Hangles by (cbn [length]; lia).
    rewrite length_reverse, length_take in Hangles. cbn [length] in Hangles. lia.
  - apply insert_insert_eq.
Qed.

Lemma derived_name_collision_witness :
  dom (snd (mergeSequencesHandler alwaysWritable exampleConfig
              (mkMergeRequest "rec_left" "rec_right" "uP_fast" "") ∅))
  = {["uP_fast.json"%string]}.
Proof.
  destruct (derived_name_collision alwaysWritable exampleConfig
              (mkMergeRequest "rec_left" "rec_right" "uP_fast" "") ∅
              (mkJointSequence "rec_left" "left" ""
                 [wayPoint "p1" "61" 0x3F000000; wayPoint "p2" "62" 0x3F800000;
                  wayPoint "p3" "63" 0x3FC00000])
              (mkJointSequence "rec_right" "right" ""
                 [wayPoint "q1" "51" 0x3F000000; wayPoint "q2" "52" 0x3F800000])
              eq_refl eq_refl eq_refl eq_refl eq_refl (fun _ => eq_refl)
              ltac:(discriminate))
    as (up & down & file & _ & _ & Hdisk).
  rewrite Hdisk. vm_compute. reflexivity.
Defined.

(** The file name of a merged sequence, byte by byte. *)
Lemma mergedFileName_bytes (name : string) :
  mergedFileName name = underscoreSeparators name.
Proof.
  unfold mergedFileName, ReplaceAll, underscoreSeparators.
  rewrite !Replace_byte, !mapString_compose. apply mapString_ext. intros x.
  destruct (decide (x = " "%char)) as [->|H1]; [reflexivity|].
  destruct (decide (x = "/"%char)) as [->|H2]; [reflexivity|].
  destruct (decide (x = "\"%char)) as [->|H3]; [reflexivity|].
  rewrite (bool_decide_eq_false_2 (" "%char = x)) by congruence.
  rewrite (bool_decide_eq_false_2 ("/"%char = x)) by congruence.
  rewrite (bool_decide_eq_false_2 ("\"%char = x)) by congruence.
  rewrite (bool_decide_eq_false_2 (x = " "%char)) by congruence.
  rewrite (bool_decide_eq_false_2 (x = "/"%char)) by congruence.
  rewrite (bool_decide_eq_false_2 (x = "\"%char)) by congruence.
  reflexivity.
Qed.

Lemma Contains_byte_mapString (f : ascii -> ascii) (c : ascii) (s : string) :
  (forall x, f x <> c) -> Contains (mapString f s) (String c "") = false.
Proof.
  intros Hf. induction s as [|x s IH]; [reflexivity|].
  cbn [mapString Contains HasPrefix]. rewrite IH, orb_false_r.
  rewrite (bool_decide_eq_false_2 (c = f x)); [reflexivity|].
  intros E. exact (Hf x (eq_sym E)).
Qed.

Lemma length_mapString (f : ascii -> ascii) (s : string) :
  String.length (mapString f s) = String.length s.
Proof. induction s as [|x s IH]; simpl; [|rewrite IH]; reflexivity. Qed.

(** X23. Whatever the merged name is, the file name it is saved under has
    as many bytes as the name and contains no slash, no backslash and no
    blank: the file stays in the directory the server writes to. *)
Theorem merged_file_name_has_no_separator (name : string) :
  Contains (mergedFileName name) "/" = false
  /\ Contains (mergedFileName name) "\" = false
  /\ Contains (mergedFileName name) " " = false
  /\ String.length (mergedFileName name) = String.length name.
Proof.
  rewrite mergedFileName_bytes. unfold underscoreSeparators.
  assert (H : forall c x,
             c = " "%char \/ c = "/"%char \/ c = "\"%char ->
             (if bool_decide (x = " "%char) || bool_decide (x = "/"%char)
                 || bool_decide (x = "\"%char)
              then "_"%char else x) <> c).
  { intros c x Hc.
    destruct (bool_decide (x = " "%char)) eqn:E1;
      [destruct Hc as [-> | [-> | ->]]; discriminate|].
    destruct (bool_decide (x = "/"%char)) eqn:E2;
      [destruct Hc as [-> | [-> | ->]]; discriminate|].
    destruct (bool_decide (x = "\"%char)) eqn:E3;
      [destruct Hc as [-> | [-> | ->]]; discriminate|].
    apply bool_decide_eq_false in E1, E2, E3. cbn [orb].
    destruct Hc as [-> | [-> | ->]]; assumption. }
  repeat split.
  - apply Contains_byte_mapString. intros x. apply H. auto.
  - apply Contains_byte_mapString. intros x. apply H. auto.
  - apply Contains_byte_mapString. intros x. apply H. auto.
  - apply length_mapString.
Qed.

(** Two names that differ in a separator only share one file. *)
Example file_names_collide :
  mergedFilePath "lift up" = mergedFilePath "lift/up"
  /\ mergedFilePath "lift up" = "lift_up.json"%string.
Proof. split; reflexivity. Qed.

(** * Properties of the recorded sequences *)

Lemma findSequence_snoc (name : string) (s : JointSequence)
    (l : list JointSequence) :
  forall found,
  findSequence name (l ++ [s]) found
  = if bool_decide (Name s = name) then Some s else findSequence name l found.
Proof.
  induction l as [|x l IH]; intros found; cbn [app findSequence].
  - reflexivity.
  - apply IH.
Qed.

Lemma findSequence_filter_other (name n : string) (l : list JointSequence) :
  n <> name ->
  forall found,
  findSequence n (filter (fun s => Name s <> name) l) found
  = findSequence n l found.
Proof.
  intros Hne. induction l as [|x l IH]; intros found; [reflexivity|].
  rewrite filter_cons. cbn [findSequence].
  destruct (decide (Name x <> name)) as [Hx|Hx].
  - cbn [findSequence]. apply IH.
  - rewrite IH. rewrite bool_decide_eq_false_2; [reflexivity|].
    intros E. apply Hx. congruence.
Qed.

Lemma findSequence_filter_same (name : string) (l : list JointSequence) :
  forall found,
  findSequence name (filter (fun s => Name s <> name) l) found = found.
Proof.
  induction l as [|x l IH]; intros found; [reflexivity|].
  rewrite filter_cons. destruct (decide (Name x <> name)) as [Hx|Hx].
  - cbn [findSequence]. rewrite IH. rewrite bool_decide_eq_false_2 by exact Hx.
    reflexivity.
  - apply IH.
Qed.

(** X24. After a successful [saveJointSequence] the merge handler's search
    for the name of the saved sequence finds that very sequence, also when
    older sequences of the same name are still held; the file of that name
    holds it; and the search for any other name finds what it found
    before. *)
Theorem saved_sequence_is_found (canWrite : string -> bool)
    (sequence : JointSequence) (st st' : SequenceStore) :
  saveJointSequence canWrite sequence st = (None, st') ->
  findSequence (Name sequence) (JointSequences st') None = Some sequence
  /\ seqFiles st' !! sequenceFilePath (Name sequence) = Some sequence
  /\ forall n, n <> Name sequence ->
       findSequence n (JointSequences st') None
       = findSequence n (JointSequences st) None.
Proof.
  unfold saveJointSequence.
  destruct (marshalOK [sequence]); cbn [negb]; [|discriminate].
  destruct (canWrite (sequenceFilePath (Name sequence))); cbn [negb];
    [|discriminate].
  intros [= <-]. cbn [JointSequences seqFiles]. split; [|split].
  - rewrite findSequence_snoc, bool_decide_eq_true_2 by reflexivity.
    reflexivity.
  - apply lookup_insert_eq.
  - intros n Hn. rewrite findSequence_snoc.
    rewrite bool_decide_eq_false_2 by congruence. reflexivity.
Qed.

Lemma saved_sequence_is_found_witness :
  findSequence "rec_left"
    (JointSequences
       (snd (saveJointSequence alwaysWritable
               (mkJointSequence "rec_left" "left" "new" [wayPoint "z" "61" 0])
               (mkSequenceStore ∅ exampleConfig false)))) None
  = Some (mkJointSequence "rec_left" "left" "new" [wayPoint "z" "61" 0]).
Proof.
  refine (proj1 (saved_sequence_is_found alwaysWritable
                   (mkJointSequence "rec_left" "left" "new" [wayPoint "z" "61" 0])
                   (mkSequenceStore ∅ exampleConfig false) _ _)).
  reflexivity.
Defined.

(** X25. After a successful [deleteJointSequence] no sequence of that name
    is found any more, however many were held, and its file is gone, while
    the search for every other name finds what it found before. Deleting a
    sequence that has no file succeeds. *)
Theorem deleted_sequence_is_gone (canRemove : string -> bool)
    (name : string) (st : SequenceStore) :
  (fst (deleteJointSequence canRemove name st) = true ->
   findSequence name
     (JointSequences (snd (deleteJointSequence canRemove name st))) None = None
   /\ seqFiles (snd (deleteJointSequence canRemove name st))
        !! sequenceFilePath name = None
   /\ forall n, n <> name ->
        findSequence n
          (JointSequences (snd (deleteJointSequence canRemove name st))) None
        = findSequence n (JointSequences st) None)
  /\ (seqFiles st !! sequenceFilePath name = None ->
      fst (deleteJointSequence canRemove name st) = true).
Proof.
  unfold deleteJointSequence. split.
  - destruct (seqFiles st !! sequenceFilePath name) as [old|] eqn:Hfile.
    + destruct (canRemove (sequenceFilePath name)); [|discriminate].
      intros _. cbn [snd JointSequences seqFiles]. split; [|split].
      * apply findSequence_filter_same.
      * apply lookup_delete_eq.
      * intros n Hn. apply findSequence_filter_other, Hn.
    + intros _. cbn [snd JointSequences seqFiles]. split; [|split].
      * apply findSequence_filter_same.
      * exact Hfile.
      * intros n Hn. apply findSequence_filter_other, Hn.
  - intros ->. reflexivity.
Qed.

Lemma deleted_sequence_is_gone_witness :
  findSequence "rec_left"
    (JointSequences
       (snd (deleteJointSequence alwaysWritable "rec_left"
               (mkSequenceStore ∅ (exampleConfig ++ exampleConfig) false))))
    None
  = None.
Proof.
  refine (proj1 (proj1 (deleted_sequence_is_gone alwaysWritable "rec_left"
                          (mkSequenceStore ∅ (exampleConfig ++ exampleConfig)
                             false))
                   _)).
  reflexivity.
Defined.

(** X26. Saving a sequence under a name that is neither held in memory nor
    on file and then deleting that name gives back the sequence files and
    the sequences in memory as they were. The one trace left is the marker
    file json/.gitkeep, written by [ensureJSONDir] on the way: it exists
    afterwards whenever it existed before or its write succeeded. *)
Theorem save_then_delete_restores (canWrite canRemove : string -> bool)
    (sequence : JointSequence) (st st' : SequenceStore) :
  Forall (fun s => Name s <> Name sequence) (JointSequences st) ->
  seqFiles st !! sequenceFilePath (Name sequence) = None ->
  saveJointSequence canWrite sequence st = (None, st') ->
  canRemove (sequenceFilePath (Name sequence)) = true ->
  exists st'',
    deleteJointSequence canRemove (Name sequence) st' = (true, st'')
    /\ seqFiles st'' = seqFiles st
    /\ JointSequences st'' = JointSequences st
    /\ (gitkeep st = true \/ canWrite (gitkeepPath "json") = true ->
        gitkeep st'' = true).
Proof.
  intros Hfresh Hfile Hsave Hrm. unfold saveJointSequence in Hsave.
  destruct (marshalOK [sequence]); cbn [negb] in Hsave; [|discriminate].
  destruct (canWrite (sequenceFilePath (Name sequence))); cbn [negb] in Hsave;
    [|discriminate].
  injection Hsave as <-. unfold deleteJointSequence, ensureJSONDir.
  cbn [seqFiles JointSequences gitkeep]. rewrite lookup_insert_eq, Hrm.
  eexists. split; [reflexivity|]. cbn [seqFiles JointSequences gitkeep].
  split; [|split].
  - apply delete_insert_id, Hfile.
  - rewrite filter_app, filter_cons, decide_False by tauto.
    rewrite filter_nil, app_nil_r.
    induction Hfresh as [|x l Hx Hl IH]; [reflexivity|].
    rewrite filter_cons, decide_True by exact Hx. rewrite IH. reflexivity.
  - intros [-> | ->]; [reflexivity | apply orb_true_r].
Qed.

Lemma save_then_delete_restores_witness :
  deleteJointSequence alwaysWritable "wave"
    (snd (saveJointSequence alwaysWritable
            (mkJointSequence "wave" "left" "old" [wayPoint "w" "61" 0])
            (mkSequenceStore ∅ exampleConfig false)))
  = (true, mkSequenceStore ∅ exampleConfig true).
Proof.
  destruct (save_then_delete_restores alwaysWritable alwaysWritable
              (mkJointSequence "wave" "left" "old" [wayPoint "w" "61" 0])
              (mkSequenceStore ∅ exampleConfig false) _
              ltac:(repeat constructor; discriminate) eq_refl eq_refl eq_refl)
    as (st'' & Hdel & Hfiles & Hseqs & Hkeep).
  assert (Heq : deleteJointSequence alwaysWritable "wave"
                  (snd (saveJointSequence alwaysWritable
                          (mkJointSequence "wave" "left" "old"
                             [wayPoint "w" "61" 0])
                          (mkSequenceStore ∅ exampleConfig false)))
                = (true, st'')) by exact Hdel.
  rewrite Heq. destruct st'' as [files sequences marker].
  cbn [seqFiles JointSequences gitkeep] in *.
  rewrite Hfiles, Hseqs, (Hkeep (or_intror eq_refl)). reflexivity.
Defined.

(** X27. [determineArmType] answers "right" exactly for a non-empty list of
    ids that all lie in 51..57 and "left" exactly for a non-empty list of
    ids that all lie in 61..67; and on the motors of a controller built by
    [NewBlackArmController] it gives back the side the constructor chose
    from the device name, "left" when the name contains "left" and "right"
    otherwise. *)
Theorem determineArmType_sides (motorIDs : list Z)
    (baseURL interface_ deviceName : string) :
  (determineArmType motorIDs = "right"%string
   <-> motorIDs <> [] /\ Forall (fun id => 51 <= id <= 57) motorIDs)
  /\ (determineArmType motorIDs = "left"%string
      <-> motorIDs <> [] /\ Forall (fun id => 61 <= id <= 67) motorIDs)
  /\ determineArmType
       (MotorIDs (NewBlackArmController baseURL interface_ deviceName))
     = if Contains deviceName "left" then "left"%string else "right"%string.
Proof.
  assert (Hr : forall l,
             forallb (fun id => negb ((id <? 51) || (57 <? id))) l = true
             <-> Forall (fun id => 51 <= id <= 57) l).
  { intros l. rewrite forallb_forall, Forall_forall.
    split; intros H x Hx.
    - apply list_elem_of_In, H in Hx. lia.
    - apply list_elem_of_In, H in Hx. lia. }
  assert (Hl : forall l,
             forallb (fun id => negb ((id <? 61) || (67 <? id))) l = true
             <-> Forall (fun id => 61 <= id <= 67) l).
  { intros l. rewrite forallb_forall, Forall_forall.
    split; intros H x Hx.
    - apply list_elem_of_In, H in Hx. lia.
    - apply list_elem_of_In, H in Hx. lia. }
  split; [|split].
  - unfold determineArmType. destruct motorIDs as [|m l].
    + simpl. split; [discriminate | intros [H _]; contradiction].
    + rewrite bool_decide_eq_false_2 by discriminate.
      destruct (forallb _ (m :: l)) eqn:E1.
      * apply Hr in E1. split; [intros _; split; [discriminate | exact E1] | reflexivity].
      * split.
        -- destruct (forallb (fun id => negb ((id <? 61) || (67 <? id))) (m :: l));
             discriminate.
        -- intros [_ H]. apply Hr in H. congruence.
  - unfold determineArmType. destruct motorIDs as [|m l].
    + simpl. split; [discriminate | intros [H _]; contradiction].
    + rewrite bool_decide_eq_false_2 by discriminate.
      destruct (forallb (fun id => negb ((id <? 51) || (57 <? id))) (m :: l)) eqn:E1.
      * split; [discriminate|]. intros [_ H]. apply Hr in E1.
        apply Forall_cons in E1 as [E1 _]. apply Forall_cons in H as [H _]. lia.
      * destruct (forallb (fun id => negb ((id <? 61) || (67 <? id))) (m :: l)) eqn:E2.
        -- apply Hl in E2. split; [intros _; split; [discriminate | exact E2] | reflexivity].
        -- split; [discriminate|]. intros [_ H]. apply Hl in H. congruence.
  - unfold NewBlackArmController.
    destruct (Contains deviceName "left"); [reflexivity|].
    destruct (Contains deviceName "right"); reflexivity.
Qed.

(** A list that mixes the two ranges, and the empty list, have no side. *)
Example determineArmType_unknown :
  determineArmType [51; 61] = "unknown"%string
  /\ determineArmType [] = "unknown"%string
  /\ determineArmType [58] = "unknown"%string.
Proof. repeat split. Qed.

(** * Properties of the playback *)



(** A way-point of the left arm with a foreign joint and a key that is no
    number, played on a bridge that refuses everything: the two frames of
    the arm go out, four entries are logged as failed. *)
Example playback_example :
  let sequence :=
    mkJointSequence "s" "left" "old"
      [mkJointAngleSet "a" (list_to_map [("61", f32_0_1); ("51", f32_0_1)]%string);
       mkJointAngleSet "b" (list_to_map [("x1", f32_0_1); ("62", f32_zero)]%string)] in
  let '(failed, log) :=
    executeSequenceDirect (fun _ _ => PostFailed) leftArm map_to_list sequence [] in
  failed = 4%nat /\ list_to_set (map ID log) = ({[0x1200FD3D; 0x1200FD3E]} : gset Z).
Proof. vm_compute. split; reflexivity. Qed.

(** * Properties of the hand commands *)

Lemma map_u8_bytes (l : list Z) : Forall is_u8 l -> map u8 l = l.
Proof.
  induction 1 as [|x l Hx Hl IH]; [reflexivity|].
  cbn [map]. rewrite IH. unfold u8. rewrite Z.mod_small by exact Hx.
  reflexivity.
Qed.

(** X29. [sendHandCommandDirect] refuses fewer than six values before
    anything is posted. With six values or more it posts exactly one
    message, of seven data bytes: the control code 0x01 followed by the
    first six values reduced modulo 256; the values after the sixth are
    not used. *)
Theorem hand_command_payload (post : HandMessage -> PostResult)
    (interfaceName : string) (deviceID : Z) (values : list Z)
    (log : list HandMessage) :
  ((length values < 6)%nat ->
   sendHandCommandDirect post interfaceName deviceID values log
   = (Some ErrHandTooShort, log))
  /\ ((6 <= length values)%nat ->
      snd (sendHandCommandDirect post interfaceName deviceID values log)
      = log ++ [mkHandMessage interfaceName deviceID
                  (0x01 :: map u8 (take 6 values))]
      /\ (Forall is_u8 (take 6 values) ->
          snd (sendHandCommandDirect post interfaceName deviceID values log)
          = log ++ [mkHandMessage interfaceName deviceID
                      (0x01 :: take 6 values)])).
Proof.
  unfold sendHandCommandDirect. split.
  - intros Hlen. destruct (Nat.ltb_spec (length values) 6); [reflexivity | lia].
  - intros Hlen. destruct (Nat.ltb_spec (length values) 6); [lia|].
    assert (Hdata : 0x01 :: map u8 (take 6 values)
                    = ((((([0x01] ++ [u8 (valueAt values 0)])
                           ++ [u8 (valueAt values 1)])
                          ++ [u8 (valueAt values 2)])
                         ++ [u8 (valueAt values 3)])
                        ++ [u8 (valueAt values 4)])
                      ++ [u8 (valueAt values 5)]).
    { destruct values as [|v0 [|v1 [|v2 [|v3 [|v4 [|v5 rest]]]]]];
        cbn [length] in Hlen; try lia. reflexivity. }
    cbn [snd]. rewrite <- Hdata. split; [reflexivity|].
    intros Hbytes.
    rewrite (map_u8_bytes _ Hbytes). reflexivity.
Qed.

Lemma hand_command_payload_witness :
  snd (sendHandCommandDirect (fun _ => PostStatus 200) "can0" 40
         [255; 0; 300; -1; 17; 40; 99] [])
  = [mkHandMessage "can0" 40 [1; 255; 0; 44; 255; 17; 40]].
Proof.
  rewrite (proj1 (proj2 (hand_command_payload (fun _ => PostStatus 200) "can0" 40
                           [255; 0; 300; -1; 17; 40; 99] [])
                    ltac:(cbn [length]; lia))).
  reflexivity.
Defined.
